(** * Knight's travails: the board graph and its two searches

    A shallow embedding of [src/graph.js] (classes [GraphVertex] and [Graph])
    and of the calls made by [src/index.js].

    Objects and fields.  A [GraphVertex] is a heap object with two fields that
    are never assigned after construction ([row], [column]) and two mutable
    ones ([edges], [previous]).  The constructor of [Graph] creates exactly
    one vertex per square, so a vertex object is identified here by its
    coordinates, and each mutable field is a store indexed by vertex:
    [edges g] and [previous g].  A key absent from [previous g] is a vertex
    whose [previous] is [null].  Reference comparison ([!==]) is comparison
    of coordinates; a caller-made object that carries the coordinates of a
    board square is therefore not distinguished from the board's own vertex.

    Loops.  [for] loops over a fixed range are folds; the two [while] loops
    take a fuel argument and return [None] when it runs out. *)

From Stdlib Require Import ZArith List Bool Lia.
From stdpp Require Import base option list gmap.
Import ListNotations.

Local Open Scope Z_scope.

(** ** Data model *)

(** A vertex reference, and also a [[row, column]] pair of a returned path. *)
Abbreviation vertex := (Z * Z)%type.

Definition row (v : vertex) : Z := fst v.
Definition column (v : vertex) : Z := snd v.

Record Graph := mkGraph {
  boardSize : Z;
  board : list (list vertex);
  edges : gmap vertex (list vertex);
  previous : gmap vertex vertex
}.

Definition withEdges (e : gmap vertex (list vertex)) (g : Graph) : Graph :=
  mkGraph (boardSize g) (board g) e (previous g).

Definition withPrevious (p : gmap vertex vertex) (g : Graph) : Graph :=
  mkGraph (boardSize g) (board g) (edges g) p.

(** [vertex.edges] *)
Definition edgesOf (g : Graph) (v : vertex) : list vertex :=
  default [] (edges g !! v).

(** [array[i]] for a number [i]: [None] is [undefined]. *)
Definition index {A : Type} (array : list A) (i : Z) : option A :=
  if 0 <=? i then array !! Z.to_nat i else None.

(** [this.board[row][column]] for indices that passed the bounds filter. *)
Definition boardAt (g : Graph) (r c : Z) : option vertex :=
  index (board g) r ≫= fun rowArray => index rowArray c.

(** ** Construction *)

(** [#createVertices]: [new GraphVertex(row, column)] has no edges and a
    [null] predecessor. *)
Definition createVertices (g : Graph) : Graph :=
  fold_left
    (fun g r =>
       let rowArray := map (fun c => (r, c)) (seqZ 0 (boardSize g)) in
       mkGraph (boardSize g) (board g ++ [rowArray])
               (fold_left (fun e v => <[v := []]> e) rowArray (edges g))
               (fold_left (fun p v => delete v p) rowArray (previous g)))
    (seqZ 0 (boardSize g)) g.

(** [#createEdge] *)
Definition createEdge (vertex1 vertex2 : vertex) (g : Graph) : Graph :=
  let g1 := withEdges (<[vertex1 := edgesOf g vertex1 ++ [vertex2]]> (edges g)) g in
  withEdges (<[vertex2 := edgesOf g1 vertex2 ++ [vertex1]]> (edges g1)) g1.

(** [#edgeExists] *)
Definition edgeExists (g : Graph) (vertex1 vertex2 : vertex) : bool :=
  let row1 := row vertex1 in
  let column1 := column vertex1 in
  existsb (fun connectedVertex =>
             (row connectedVertex =? row1) && (column connectedVertex =? column1))
          (edgesOf g vertex2).

(** [#findAdjacents].  The filter keeps in-range indices only, for which the
    constructed board has a vertex ([boardAt_newGraph] below); [omap] follows
    the [map] of the source on such a board. *)
Definition findAdjacents (g : Graph) (v : vertex) : list vertex :=
  let movePatterns :=
    [ (row v - 2, column v + 1);
      (row v - 1, column v + 2);
      (row v + 1, column v + 2);
      (row v + 2, column v + 1);
      (row v + 2, column v - 1);
      (row v + 1, column v - 2);
      (row v - 1, column v - 2);
      (row v - 2, column v - 1) ] in
  let possibleMoves :=
    List.filter (fun '(r, c) =>
                   (0 <=? r) && (r <? boardSize g) && (0 <=? c) && (c <? boardSize g))
                movePatterns in
  omap (fun '(r, c) => boardAt g r c) possibleMoves.

(** [#connectAdjacents] *)
Definition connectAdjacents (g : Graph) (v : vertex) : Graph :=
  let adjacents := findAdjacents g v in
  fold_left (fun g adjacent =>
               if negb (edgeExists g v adjacent) then createEdge v adjacent g else g)
            adjacents g.

(** [#connectAllAdjacents] *)
Definition connectAllAdjacents (g : Graph) : Graph :=
  fold_left
    (fun g r =>
       fold_left
         (fun g c =>
            match boardAt g r c with
            | Some v => connectAdjacents g v
            | None => g
            end)
         (seqZ 0 (boardSize g)) g)
    (seqZ 0 (boardSize g)) g.

(** [new Graph()] *)
Definition newGraph : Graph :=
  connectAllAdjacents (createVertices (mkGraph 8 [] ∅ ∅)).

(** ** Searches *)

Inductive error := TypeError.

(** How a call ends: [return path], [return null], or an uncaught exception. *)
Inductive completion :=
| Return (path : option (list vertex))
| Throw (e : error).

(** [#isVertexInArray] *)
Definition isVertexInArray (v : vertex) (array : list vertex) : bool :=
  existsb (fun element => (row v =? row element) && (column v =? column element)) array.

(** The [while] loop of [#reconstructPath].  Reading [row] of a [null]
    predecessor throws. *)
Fixpoint reconstructLoop (fuel : nat) (g : Graph) (v initialVertex : vertex)
    (path : list vertex) : option (error + list vertex) :=
  if decide (v = initialVertex) then Some (inr path)
  else
    match fuel with
    | O => None
    | S fuel =>
        let path := path ++ [(row v, column v)] in
        match previous g !! v with
        | Some v' => reconstructLoop fuel g v' initialVertex path
        | None => Some (inl TypeError)
        end
    end.

(** [#reconstructPath] *)
Definition reconstructPath (fuel : nat) (g : Graph) (v initialVertex : vertex)
    : option completion :=
  match reconstructLoop fuel g v initialVertex [] with
  | None => None
  | Some (inl e) => Some (Throw e)
  | Some (inr path) =>
      let path := path ++ [(row initialVertex, column initialVertex)] in
      Some (Return (Some (rev path)))
  end.

(** The body of [adjacents.forEach] in both searches; [frontier] is the
    [stack] or the [queue]. *)
Definition visit (v : vertex) (explored : list vertex)
    (st : Graph * list vertex) (adjacent : vertex) : Graph * list vertex :=
  let '(g, frontier) := st in
  if negb (isVertexInArray adjacent frontier) && negb (isVertexInArray adjacent explored)
  then (withPrevious (<[adjacent := v]> (previous g)) g, frontier ++ [adjacent])
  else (g, frontier).

(** A finished run: the graph it leaves, the [explored] array (whose length
    is what the search logs, and the number of iterations of its loop), and
    the completion. *)
Abbreviation run := (Graph * list vertex * completion)%type.

(** [Array.prototype.pop] *)
Definition pop {A : Type} (array : list A) : option (A * list A) :=
  match rev array with
  | [] => None
  | x :: rest => Some (x, rev rest)
  end.

(** The [while] loop of [knightMovesDFS]. *)
Fixpoint dfsLoop (pathFuel fuel : nat) (g : Graph) (stack explored : list vertex)
    (initialVertex endVertex : vertex) : option run :=
  match pop stack with
  | None => Some (g, explored, Return None)
  | Some (v, stack) =>
      match fuel with
      | O => None
      | S fuel =>
          let explored := explored ++ [v] in
          if (row v =? row endVertex) && (column v =? column endVertex) then
            c ← reconstructPath pathFuel g v initialVertex;
            Some (g, explored, c)
          else
            let adjacents := findAdjacents g v in
            let '(g, stack) := fold_left (visit v explored) adjacents (g, stack) in
            dfsLoop pathFuel fuel g stack explored initialVertex endVertex
      end
  end.

(** [knightMovesDFS] *)
Definition knightMovesDFS (fuel : nat) (g : Graph) (initialVertex endVertex : vertex)
    : option run :=
  dfsLoop fuel fuel g [initialVertex] [] initialVertex endVertex.

(** The [while] loop of [knightMovesBFS]; [shift] removes the head. *)
Fixpoint bfsLoop (pathFuel fuel : nat) (g : Graph) (queue explored : list vertex)
    (initialVertex endVertex : vertex) : option run :=
  match queue with
  | [] => Some (g, explored, Return None)
  | v :: queue =>
      match fuel with
      | O => None
      | S fuel =>
          let explored := explored ++ [v] in
          if (row v =? row endVertex) && (column v =? column endVertex) then
            c ← reconstructPath pathFuel g v initialVertex;
            Some (g, explored, c)
          else
            let adjacents := findAdjacents g v in
            let '(g, queue) := fold_left (visit v explored) adjacents (g, queue) in
            bfsLoop pathFuel fuel g queue explored initialVertex endVertex
      end
  end.

(** [knightMovesBFS] *)
Definition knightMovesBFS (fuel : nat) (g : Graph) (initialVertex endVertex : vertex)
    : option run :=
  bfsLoop fuel fuel g [initialVertex] [] initialVertex endVertex.

(** ** Arguments that are not vertices, and the calls of [index.js] *)

(** What a caller can pass: a vertex object, or [undefined]. *)
Inductive value := Undefined | Object (v : vertex).

(** A search applied to arbitrary arguments.  With an [undefined] start the
    first iteration removes [undefined] from the frontier and reads its
    [row]; with an [undefined] goal it reads [endVertex.row].  Both throw
    before anything is assigned. *)
Definition applySearch (search : nat -> Graph -> vertex -> vertex -> option run)
    (fuel : nat) (g : Graph) (initialVertex endVertex : value)
    : option (Graph * completion) :=
  match initialVertex, endVertex with
  | Object s, Object t => r ← search fuel g s t; Some (r.1.1, r.2)
  | _, _ => Some (g, Throw TypeError)
  end.

(** The argument expression [test.board[r][c]]: indexing the [undefined] row
    throws, a missing column gives [undefined]. *)
Definition boardLookup (g : Graph) (r c : Z) : error + value :=
  match index (board g) r with
  | None => inl TypeError
  | Some rowArray => inr (from_option Object Undefined (index rowArray c))
  end.

(** [test.search(test.board[r1][c1], test.board[r2][c2])], arguments
    evaluated left to right. *)
Definition driverCall (search : nat -> Graph -> vertex -> vertex -> option run)
    (fuel : nat) (g : Graph) (start goal : Z * Z) : option (Graph * completion) :=
  match boardLookup g start.1 start.2 with
  | inl e => Some (g, Throw e)
  | inr a =>
      match boardLookup g goal.1 goal.2 with
      | inl e => Some (g, Throw e)
      | inr b => applySearch search fuel g a b
      end
  end.

(** A sequence of calls on one instance. *)
Inductive call :=
| CallBFS (start goal : vertex)
| CallDFS (start goal : vertex).

Definition runCall (fuel : nat) (g : Graph) (c : call) : option run :=
  match c with
  | CallBFS s t => knightMovesBFS fuel g s t
  | CallDFS s t => knightMovesDFS fuel g s t
  end.

Fixpoint runCalls (fuel : nat) (g : Graph) (cs : list call) : option Graph :=
  match cs with
  | [] => Some g
  | c :: cs => r ← runCall fuel g c; runCalls fuel r.1.1 cs
  end.

(** ** Specification vocabulary *)

Definition onBoard (v : vertex) : Prop :=
  0 <= row v < 8 /\ 0 <= column v < 8.

Definition callOnBoard (c : call) : Prop :=
  match c with
  | CallBFS s t | CallDFS s t => onBoard s /\ onBoard t
  end.

(** The 64 squares, row by row. *)
Definition squares : list vertex :=
  flat_map (fun r => map (fun c => (r, c)) (seqZ 0 8)) (seqZ 0 8).

(** A legal knight-move offset: (±1,±2) or (±2,±1). *)
Definition knightOffset (a b : vertex) : Prop :=
  (Z.abs (row b - row a) = 1 /\ Z.abs (column b - column a) = 2) \/
  (Z.abs (row b - row a) = 2 /\ Z.abs (column b - column a) = 1).

Definition knightOffsetb (a b : vertex) : bool :=
  ((Z.abs (row b - row a) =? 1) && (Z.abs (column b - column a) =? 2)) ||
  ((Z.abs (row b - row a) =? 2) && (Z.abs (column b - column a) =? 1)).

(** Every consecutive pair of the sequence is related by [R]. *)
Fixpoint consecutive (R : vertex -> vertex -> Prop) (p : list vertex) : Prop :=
  match p with
  | a :: (b :: _) as rest => R a b /\ consecutive R rest
  | _ => True
  end.

Fixpoint consecutiveb (R : vertex -> vertex -> bool) (p : list vertex) : bool :=
  match p with
  | a :: (b :: _) as rest => R a b && consecutiveb R rest
  | _ => true
  end.

(** A path from [s] to [t]: starts at [s], ends at [t], moves by legal
    offsets. *)
Definition pathFromTo (s t : vertex) (p : list vertex) : Prop :=
  head p = Some s /\ last p = Some t /\ consecutive knightOffset p.

(** A walk of the knight-move graph of the board. *)
Definition walk (s t : vertex) (p : list vertex) : Prop :=
  pathFromTo s t p /\ Forall onBoard p.

(** Number of moves of a path. *)
Definition moves (p : list vertex) : nat := Nat.pred (length p).

(** Modelled after the data model of the specification: the neighbours of a
    square are the squares one legal offset away that stay on the board. *)
Definition knightNeighbours (v : vertex) : list vertex :=
  List.filter
    (fun w => (0 <=? row w) && (row w <? 8) && (0 <=? column w) && (column w <? 8))
    (map (fun d => (row v + d.1, column v + d.2))
         [(1, 2); (1, -2); (-1, 2); (-1, -2); (2, 1); (2, -1); (-2, 1); (-2, -1)]).

(** Squares at the end of some walk of exactly [n] moves from a square of
    [from]: the reference against which the breadth-first result is
    measured. *)
Fixpoint layer (n : nat) (from : list vertex) : list vertex :=
  match n with
  | O => from
  | S n => layer n (remove_dups (flat_map knightNeighbours from))
  end.

(** The graph with the fields of [g] and the predecessors of [g] laid over
    an older store [old]. *)
Definition overlay (old : gmap vertex vertex) (g : Graph) : Graph :=
  withPrevious (previous g ∪ old) g.

(** What a run shows to its caller. *)
Definition outcome (r : option run) : option (list vertex * completion) :=
  r ≫= fun r => Some (r.1.2, r.2).

(** ** Decision procedures for the exhaustive checks *)

(** [g'] has the board, the size and the edges of [g]. *)
Definition sameBoard (g g' : Graph) : Prop := g' = withPrevious (previous g') g.

(** The path and the [explored] array of a search on the fresh graph, with
    fuel 64. *)
Definition found (search : nat -> Graph -> vertex -> vertex -> option run)
    (s t : vertex) : option (list vertex * list vertex) :=
  match search 64%nat newGraph s t with
  | Some (_, explored, Return (Some p)) => Some (explored, p)
  | _ => None
  end.

Definition onBoardb (v : vertex) : bool :=
  (0 <=? row v) && (row v <? 8) && (0 <=? column v) && (column v <? 8).

Definition pathOkb (s t : vertex) (p : list vertex) : bool :=
  bool_decide (head p = Some s) && bool_decide (last p = Some t) &&
  consecutiveb knightOffsetb p && forallb onBoardb p.

Definition exploredOkb (explored : list vertex) : bool :=
  (length explored <=? 64)%nat && bool_decide (NoDup explored).

Definition layers (s : vertex) : list (list vertex) :=
  map (fun k => layer k [s]) (seq 0 8).

Definition bfsOkb (s : vertex) : bool :=
  let ls := layers s in
  forallb (fun t =>
             match found knightMovesBFS s t with
             | Some (explored, p) =>
                 pathOkb s t p && exploredOkb explored && (moves p <=? 8)%nat &&
                 forallb (fun k => negb (isVertexInArray t (nth k ls [])))
                         (seq 0 (moves p))
             | None => false
             end) squares.

Definition dfsOkb (s : vertex) : bool :=
  forallb (fun t =>
             match found knightMovesDFS s t with
             | Some (explored, p) => pathOkb s t p && exploredOkb explored
             | None => false
             end) squares.

(** The check of one square, for the edge lists [E] of a graph. *)
Definition edgesOkb (E : vertex -> list vertex) (a : vertex) : bool :=
  negb (isVertexInArray a (E a)) &&
  (2 <=? length (E a))%nat && (length (E a) <=? 8)%nat &&
  (if (2 <=? row a) && (row a <=? 5) && (2 <=? column a) && (column a <=? 5)
   then (length (E a) =? 8)%nat else true) &&
  forallb (fun b => eqb (isVertexInArray a (E b)) (isVertexInArray b (E a))) squares.

(** ** Vocabulary of the further properties *)

(** The eight candidate squares of [#findAdjacents], in its order. *)
Definition movePatterns (v : vertex) : list vertex :=
  [ (row v - 2, column v + 1);
    (row v - 1, column v + 2);
    (row v + 1, column v + 2);
    (row v + 2, column v + 1);
    (row v + 2, column v - 1);
    (row v + 1, column v - 2);
    (row v - 1, column v - 2);
    (row v - 2, column v - 1) ].


(** Each element of the sequence has the next one as its [previous]. *)
Definition linkedBack (g : Graph) : list vertex -> Prop :=
  consecutive (fun a b => previous g !! a = Some b).

(** Each element of the sequence is the [previous] of the next one. *)
Definition linked (g : Graph) : list vertex -> Prop :=
  consecutive (fun a b => previous g !! b = Some a).

(** The check of one square: the edge list [E] against the adjacents [F]. *)
Definition edgesMatchb (E F : vertex -> list vertex) (a : vertex) : bool :=
  bool_decide (NoDup (E a)) && forallb onBoardb (E a) &&
  forallb (fun b => eqb (isVertexInArray b (E a)) (isVertexInArray b (F a))) squares.

(** The [explored] array of a search on the fresh graph that returns [null]. *)
Definition missed (search : nat -> Graph -> vertex -> vertex -> option run)
    (s t : vertex) : option (list vertex) :=
  match search 64%nat newGraph s t with
  | Some (_, explored, Return None) => Some explored
  | _ => None
  end.

(** The check of one start square for a goal off the board. *)
Definition missOkb (search : nat -> Graph -> vertex -> vertex -> option run)
    (s : vertex) : bool :=
  match missed search s (8, 8) with
  | Some explored =>
      bool_decide (NoDup explored) && forallb onBoardb explored &&
      forallb (fun v => isVertexInArray v explored) squares
  | None => false
  end.


(** ** More fuel does not change a finished run *)

Section Fuel.

Lemma reconstructLoop_more (f f' : nat) g v s path r :
  reconstructLoop f g v s path = Some r -> (f <= f')%nat ->
  reconstructLoop f' g v s path = Some r.
Proof.
  revert f' v path.
  induction f as [|f IH]; intros f' v path; simpl.
  - destruct f'; simpl; case_decide; congruence.
  - intros H Hle. destruct f' as [|f']; [lia|]. simpl.
    case_decide; [exact H|].
    destruct (previous g !! v) as [v'|]; [|exact H].
    apply IH; [exact H | lia].
Qed.

Lemma reconstructPath_more (f f' : nat) g v s c :
  reconstructPath f g v s = Some c -> (f <= f')%nat ->
  reconstructPath f' g v s = Some c.
Proof.
  unfold reconstructPath. intros H Hle.
  destruct (reconstructLoop f g v s []) as [r|] eqn:E; [|discriminate].
  rewrite (reconstructLoop_more f f' g v s [] r E Hle). exact H.
Qed.

Lemma bfsLoop_more (pf pf' f f' : nat) g queue explored s t r :
  bfsLoop pf f g queue explored s t = Some r ->
  (pf <= pf')%nat -> (f <= f')%nat ->
  bfsLoop pf' f' g queue explored s t = Some r.
Proof.
  intros H Hp. revert f' g queue explored H.
  induction f as [|f IH]; intros f' g queue explored H Hle.
  - destruct queue; simpl in H; [|discriminate].
    destruct f'; exact H.
  - destruct f' as [|f']; [lia|].
    destruct queue as [|v queue]; [exact H|].
    simpl in H |- *.
    destruct ((row v =? row t) && (column v =? column t)).
    + destruct (reconstructPath pf g v s) as [c|] eqn:E; [|discriminate].
      rewrite (reconstructPath_more pf pf' g v s c E Hp). exact H.
    + destruct (fold_left (visit v (explored ++ [v])) (findAdjacents g v) (g, queue))
        as [g1 queue1].
      apply IH; [exact H | lia].
Qed.

Lemma dfsLoop_more (pf pf' f f' : nat) g stack explored s t r :
  dfsLoop pf f g stack explored s t = Some r ->
  (pf <= pf')%nat -> (f <= f')%nat ->
  dfsLoop pf' f' g stack explored s t = Some r.
Proof.
  intros H Hp. revert f' g stack explored H.
  induction f as [|f IH]; intros f' g stack explored H Hle.
  - simpl in H. destruct (pop stack) as [[v stack1]|] eqn:E; [discriminate|].
    destruct f'; simpl; rewrite E; exact H.
  - destruct f' as [|f']; [lia|].
    simpl in H |- *.
    destruct (pop stack) as [[v stack1]|]; [|exact H].
    destruct ((row v =? row t) && (column v =? column t)).
    + destruct (reconstructPath pf g v s) as [c|] eqn:E; [|discriminate].
      rewrite (reconstructPath_more pf pf' g v s c E Hp). exact H.
    + destruct (fold_left (visit v (explored ++ [v])) (findAdjacents g v) (g, stack1))
        as [g1 stack2].
      apply IH; [exact H | lia].
Qed.

End Fuel.

(** ** A search does not read the predecessors it did not write *)

Section Overlay.

Variable old : gmap vertex vertex.

Lemma findAdjacents_overlay g v :
  findAdjacents (overlay old g) v = findAdjacents g v.
Proof. reflexivity. Qed.

Lemma reconstructLoop_overlay (f : nat) g v s path p :
  reconstructLoop f g v s path = Some (inr p) ->
  reconstructLoop f (overlay old g) v s path = Some (inr p).
Proof.
  revert v path. induction f as [|f IH]; intros v path; simpl.
  - case_decide; congruence.
  - case_decide; [congruence|].
    destruct (previous g !! v) as [v'|] eqn:E; [|discriminate].
    intros Hrec.
    rewrite (lookup_union_Some_l (previous g) old v v' E).
    apply IH, Hrec.
Qed.

Lemma reconstructPath_overlay (f : nat) g v s p :
  reconstructPath f g v s = Some (Return (Some p)) ->
  reconstructPath f (overlay old g) v s = Some (Return (Some p)).
Proof.
  unfold reconstructPath. intros H.
  destruct (reconstructLoop f g v s []) as [[e|path]|] eqn:E; try discriminate.
  rewrite (reconstructLoop_overlay f g v s [] path E). exact H.
Qed.

Lemma visit_overlay v explored g frontier adjacent :
  visit v explored (overlay old g, frontier) adjacent =
  (overlay old (visit v explored (g, frontier) adjacent).1,
   (visit v explored (g, frontier) adjacent).2).
Proof.
  unfold visit.
  destruct (negb (isVertexInArray adjacent frontier) &&
            negb (isVertexInArray adjacent explored)); simpl; [|reflexivity].
  unfold overlay, withPrevious; simpl.
  rewrite insert_union_l. reflexivity.
Qed.

Lemma fold_visit_overlay v explored adjacents g frontier :
  fold_left (visit v explored) adjacents (overlay old g, frontier) =
  (overlay old (fold_left (visit v explored) adjacents (g, frontier)).1,
   (fold_left (visit v explored) adjacents (g, frontier)).2).
Proof.
  revert g frontier.
  induction adjacents as [|a l IH]; intros g frontier; cbn [fold_left].
  - reflexivity.
  - rewrite visit_overlay.
    destruct (visit v explored (g, frontier) a) as [g1 frontier1].
    apply IH.
Qed.

Lemma bfsLoop_overlay (pf f : nat) g queue explored s t g' explored' p :
  bfsLoop pf f g queue explored s t = Some (g', explored', Return (Some p)) ->
  bfsLoop pf f (overlay old g) queue explored s t
  = Some (overlay old g', explored', Return (Some p)).
Proof.
  revert g queue explored. induction f as [|f IH]; intros g queue explored H.
  - destruct queue; simpl in H; discriminate.
  - destruct queue as [|v queue]; [discriminate|].
    simpl in H |- *.
    destruct ((row v =? row t) && (column v =? column t)).
    + destruct (reconstructPath pf g v s) as [c|] eqn:E; [|discriminate].
      assert (c = Return (Some p)) as -> by (simpl in H; congruence).
      rewrite (reconstructPath_overlay pf g v s p E).
      simpl in H |- *. congruence.
    + rewrite findAdjacents_overlay, fold_visit_overlay.
      destruct (fold_left (visit v (explored ++ [v])) (findAdjacents g v) (g, queue))
        as [g1 queue1]; simpl.
      apply IH, H.
Qed.

Lemma dfsLoop_overlay (pf f : nat) g stack explored s t g' explored' p :
  dfsLoop pf f g stack explored s t = Some (g', explored', Return (Some p)) ->
  dfsLoop pf f (overlay old g) stack explored s t
  = Some (overlay old g', explored', Return (Some p)).
Proof.
  revert g stack explored. induction f as [|f IH]; intros g stack explored H.
  - simpl in H. destruct (pop stack) as [[v stack1]|]; discriminate.
  - simpl in H |- *.
    destruct (pop stack) as [[v stack1]|]; [|discriminate].
    destruct ((row v =? row t) && (column v =? column t)).
    + destruct (reconstructPath pf g v s) as [c|] eqn:E; [|discriminate].
      assert (c = Return (Some p)) as -> by (simpl in H; congruence).
      rewrite (reconstructPath_overlay pf g v s p E).
      simpl in H |- *. congruence.
    + rewrite findAdjacents_overlay, fold_visit_overlay.
      destruct (fold_left (visit v (explored ++ [v])) (findAdjacents g v) (g, stack1))
        as [g1 stack2]; simpl.
      apply IH, H.
Qed.

End Overlay.

(** ** The constructed graph *)

Lemma boardSize_newGraph : boardSize newGraph = 8.
Proof. reflexivity. Qed.

Lemma board_newGraph :
  board newGraph = map (fun r => map (fun c => (r, c)) (seqZ 0 8)) (seqZ 0 8).
Proof. vm_compute. reflexivity. Qed.

Lemma previous_newGraph : previous newGraph = ∅.
Proof. vm_compute. reflexivity. Qed.

Lemma overlay_newGraph old : overlay old newGraph = withPrevious old newGraph.
Proof.
  unfold overlay. rewrite previous_newGraph, (left_id_L ∅ (∪)). reflexivity.
Qed.

Lemma onBoard_squares v : onBoard v -> In v squares.
Proof.
  destruct v as [r c]. intros [Hr Hc].
  unfold row, column in Hr, Hc; simpl in Hr, Hc.
  unfold squares. apply in_flat_map. exists r. split.
  - apply list_elem_of_In, elem_of_seqZ. lia.
  - apply in_map, list_elem_of_In, elem_of_seqZ. lia.
Qed.

Lemma isVertexInArray_In v l : isVertexInArray v l = true <-> In v l.
Proof.
  unfold isVertexInArray. rewrite existsb_exists. split.
  - intros [w [Hw Heq]]. apply andb_true_iff in Heq as [H1 H2].
    apply Z.eqb_eq in H1, H2. destruct v, w; unfold row, column in *; simpl in *.
    subst. exact Hw.
  - intros H. exists v. split; [exact H|]. rewrite !Z.eqb_refl. reflexivity.
Qed.

(** ** Exhaustive checks on the fresh graph *)

Lemma bfs_sweep : forallb bfsOkb squares = true.
Proof. vm_compute. reflexivity. Qed.

Lemma dfs_sweep : forallb dfsOkb squares = true.
Proof. vm_compute. reflexivity. Qed.

(** ** From the fresh graph to any state of the instance *)

Lemma sameBoard_refl g : sameBoard g g.
Proof. destruct g; reflexivity. Qed.

Lemma sameBoard_trans g1 g2 g3 : sameBoard g1 g2 -> sameBoard g2 g3 -> sameBoard g1 g3.
Proof. unfold sameBoard. intros H1 H2. rewrite H2 at 1. rewrite H1 at 1. reflexivity. Qed.

Lemma visit_sameBoard v explored g frontier adjacent :
  sameBoard g (visit v explored (g, frontier) adjacent).1.
Proof.
  unfold visit.
  destruct (negb (isVertexInArray adjacent frontier) &&
            negb (isVertexInArray adjacent explored)); simpl.
  - reflexivity.
  - apply sameBoard_refl.
Qed.

Lemma fold_visit_sameBoard v explored adjacents g frontier :
  sameBoard g (fold_left (visit v explored) adjacents (g, frontier)).1.
Proof.
  revert g frontier.
  induction adjacents as [|a l IH]; intros g frontier; cbn [fold_left].
  - apply sameBoard_refl.
  - pose proof (visit_sameBoard v explored g frontier a) as Hv.
    destruct (visit v explored (g, frontier) a) as [g1 frontier1].
    exact (sameBoard_trans _ _ _ Hv (IH g1 frontier1)).
Qed.

Lemma bfsLoop_sameBoard (pf f : nat) g queue explored s t r :
  bfsLoop pf f g queue explored s t = Some r -> sameBoard g r.1.1.
Proof.
  revert g queue explored. induction f as [|f IH]; intros g queue explored H.
  - destruct queue; simpl in H; [|discriminate].
    simplify_eq. apply sameBoard_refl.
  - destruct queue as [|v queue]; simpl in H.
    { simplify_eq. apply sameBoard_refl. }
    destruct ((row v =? row t) && (column v =? column t)).
    + destruct (reconstructPath pf g v s); simpl in H; [|discriminate].
      simplify_eq. apply sameBoard_refl.
    + pose proof (fold_visit_sameBoard v (explored ++ [v]) (findAdjacents g v) g queue) as Hv.
      destruct (fold_left (visit v (explored ++ [v])) (findAdjacents g v) (g, queue))
        as [g1 queue1].
      exact (sameBoard_trans _ _ _ Hv (IH _ _ _ H)).
Qed.

Lemma dfsLoop_sameBoard (pf f : nat) g stack explored s t r :
  dfsLoop pf f g stack explored s t = Some r -> sameBoard g r.1.1.
Proof.
  revert g stack explored. induction f as [|f IH]; intros g stack explored H.
  - simpl in H. destruct (pop stack) as [[v stack1]|]; [discriminate|].
    simplify_eq. apply sameBoard_refl.
  - simpl in H. destruct (pop stack) as [[v stack1]|].
    2:{ simplify_eq. apply sameBoard_refl. }
    destruct ((row v =? row t) && (column v =? column t)).
    + destruct (reconstructPath pf g v s); simpl in H; [|discriminate].
      simplify_eq. apply sameBoard_refl.
    + pose proof (fold_visit_sameBoard v (explored ++ [v]) (findAdjacents g v) g stack1) as Hv.
      destruct (fold_left (visit v (explored ++ [v])) (findAdjacents g v) (g, stack1))
        as [g1 stack2].
      exact (sameBoard_trans _ _ _ Hv (IH _ _ _ H)).
Qed.

Lemma overlay_sameBoard old g g' :
  sameBoard g g' -> overlay old g' = withPrevious (previous g' ∪ old) g.
Proof. unfold overlay, sameBoard. intros H. rewrite H at 2. reflexivity. Qed.

(** A path found on the fresh graph with fuel 64 is found, with the same
    [explored] array, from every state of the instance and with any larger
    fuel. *)
Lemma knightMovesBFS_any_state s t explored p :
  found knightMovesBFS s t = Some (explored, p) ->
  forall old (n : nat), exists old',
    knightMovesBFS (64 + n) (withPrevious old newGraph) s t
    = Some (withPrevious old' newGraph, explored, Return (Some p)).
Proof.
  unfold found. intros H old n.
  destruct (knightMovesBFS 64 newGraph s t) as [[[g' e'] c]|] eqn:E; [|discriminate].
  destruct c as [[p'|]|]; try discriminate. simplify_eq.
  exists (previous g' ∪ old). unfold knightMovesBFS in *.
  pose proof (bfsLoop_sameBoard _ _ _ _ _ _ _ _ E) as Hs. simpl in Hs.
  apply (bfsLoop_overlay old) in E.
  rewrite overlay_newGraph, (overlay_sameBoard old newGraph g' Hs) in E.
  apply (bfsLoop_more 64 (64 + n) 64 (64 + n) _ _ _ _ _ _ E); lia.
Qed.

Lemma knightMovesDFS_any_state s t explored p :
  found knightMovesDFS s t = Some (explored, p) ->
  forall old (n : nat), exists old',
    knightMovesDFS (64 + n) (withPrevious old newGraph) s t
    = Some (withPrevious old' newGraph, explored, Return (Some p)).
Proof.
  unfold found. intros H old n.
  destruct (knightMovesDFS 64 newGraph s t) as [[[g' e'] c]|] eqn:E; [|discriminate].
  destruct c as [[p'|]|]; try discriminate. simplify_eq.
  exists (previous g' ∪ old). unfold knightMovesDFS in *.
  pose proof (dfsLoop_sameBoard _ _ _ _ _ _ _ _ E) as Hs. simpl in Hs.
  apply (dfsLoop_overlay old) in E.
  rewrite overlay_newGraph, (overlay_sameBoard old newGraph g' Hs) in E.
  apply (dfsLoop_more 64 (64 + n) 64 (64 + n) _ _ _ _ _ _ E); lia.
Qed.

(** ** Reading the checks *)

Lemma onBoardb_spec v : onBoardb v = true <-> onBoard v.
Proof. unfold onBoardb, onBoard. rewrite !andb_true_iff, !Z.leb_le, !Z.ltb_lt. lia. Qed.

Lemma knightOffsetb_spec a b : knightOffsetb a b = true <-> knightOffset a b.
Proof.
  unfold knightOffsetb, knightOffset.
  rewrite orb_true_iff, !andb_true_iff, !Z.eqb_eq. reflexivity.
Qed.

Lemma consecutiveb_spec p : consecutiveb knightOffsetb p = true -> consecutive knightOffset p.
Proof.
  induction p as [|a [|b rest] IH]; simpl; try trivial.
  intros H. apply andb_true_iff in H as [H1 H2]. split.
  - apply knightOffsetb_spec, H1.
  - apply IH, H2.
Qed.

Lemma pathOkb_spec s t p : pathOkb s t p = true -> walk s t p.
Proof.
  unfold pathOkb, walk, pathFromTo. rewrite !andb_true_iff.
  intros [[[H1 H2] H3] H4].
  apply bool_decide_eq_true in H1, H2. repeat split; try assumption.
  - apply consecutiveb_spec, H3.
  - apply Forall_forall. intros v Hv. apply onBoardb_spec.
    rewrite forallb_forall in H4. apply H4, list_elem_of_In, Hv.
Qed.

Lemma exploredOkb_spec explored :
  exploredOkb explored = true -> (length explored <= 64)%nat /\ NoDup explored.
Proof.
  unfold exploredOkb. rewrite andb_true_iff. intros [H1 H2]. split.
  - apply Nat.leb_le, H1.
  - apply bool_decide_eq_true in H2. exact H2.
Qed.

Lemma nth_layers (k : nat) s : (k < 8)%nat -> nth k (layers s) [] = layer k [s].
Proof.
  intros H. unfold layers.
  do 8 (destruct k as [|k]; [reflexivity|]). lia.
Qed.

Lemma bfs_on_board s t :
  onBoard s -> onBoard t ->
  exists explored p,
    found knightMovesBFS s t = Some (explored, p) /\
    walk s t p /\
    ((length explored <= 64)%nat /\ NoDup explored) /\
    forall k : nat, (k < moves p)%nat -> isVertexInArray t (layer k [s]) = false.
Proof.
  intros Hs Ht.
  pose proof bfs_sweep as H. rewrite forallb_forall in H.
  specialize (H s (onBoard_squares s Hs)). unfold bfsOkb in H.
  rewrite forallb_forall in H. specialize (H t (onBoard_squares t Ht)).
  destruct (found knightMovesBFS s t) as [[explored p]|]; [|discriminate].
  exists explored, p.
  rewrite !andb_true_iff in H. destruct H as [[[H1 H2] H3] H4].
  apply Nat.leb_le in H3. rewrite forallb_forall in H4.
  split; [reflexivity|]. split; [apply pathOkb_spec, H1|].
  split; [apply exploredOkb_spec, H2|].
  intros k Hk. specialize (H4 k). rewrite nth_layers in H4 by lia.
  apply negb_true_iff, H4, in_seq. lia.
Qed.

Lemma dfs_on_board s t :
  onBoard s -> onBoard t ->
  exists explored p,
    found knightMovesDFS s t = Some (explored, p) /\
    walk s t p /\
    ((length explored <= 64)%nat /\ NoDup explored).
Proof.
  intros Hs Ht.
  pose proof dfs_sweep as H. rewrite forallb_forall in H.
  specialize (H s (onBoard_squares s Hs)). unfold dfsOkb in H.
  rewrite forallb_forall in H. specialize (H t (onBoard_squares t Ht)).
  destruct (found knightMovesDFS s t) as [[explored p]|]; [|discriminate].
  exists explored, p.
  rewrite !andb_true_iff in H. destruct H as [H1 H2].
  split; [reflexivity|]. split; [apply pathOkb_spec, H1|].
  apply exploredOkb_spec, H2.
Qed.

(** ** Walks of the knight-move graph *)

Lemma knightNeighbours_complete a b :
  knightOffset a b -> onBoard b -> In b (knightNeighbours a).
Proof.
  destruct a as [r c], b as [r' c'].
  unfold knightOffset, onBoard, knightNeighbours, row, column; simpl fst; simpl snd.
  intros Hoff [Hr Hc]. apply filter_In. split.
  - assert (r' = r + (r' - r)) as Er by lia.
    assert (c' = c + (c' - c)) as Ec by lia.
    revert Er Ec. generalize (r' - r) (c' - c) Hoff. clear. intros dr dc Hoff Er Ec.
    subst r' c'. cbn [map fst snd].
    assert ((dr = 1 /\ dc = 2) \/ (dr = 1 /\ dc = -2) \/ (dr = -1 /\ dc = 2) \/
            (dr = -1 /\ dc = -2) \/ (dr = 2 /\ dc = 1) \/ (dr = 2 /\ dc = -1) \/
            (dr = -2 /\ dc = 1) \/ (dr = -2 /\ dc = -1)) as Hcases by lia.
    clear Hoff.
    repeat (destruct Hcases as [[-> ->]|Hcases]; [simpl; tauto|]).
    destruct Hcases as [-> ->]. simpl; tauto.
  - unfold row, column; simpl fst; simpl snd.
    rewrite !andb_true_iff, !Z.leb_le, !Z.ltb_lt. lia.
Qed.

Lemma consecutive_tail R a p : consecutive R (a :: p) -> consecutive R p.
Proof. destruct p; simpl; tauto. Qed.

(** The end of a walk of [n] moves lies in the [n]-th layer around its start. *)
Lemma walk_layer q : forall from a t,
  In a from -> head q = Some a -> last q = Some t ->
  consecutive knightOffset q -> Forall onBoard q ->
  In t (layer (moves q) from).
Proof.
  induction q as [|x q IH]; intros from a t Ha Hh Hl Hc Hb; [discriminate|].
  simpl in Hh. injection Hh as ->.
  destruct q as [|b q].
  - simpl in Hl. injection Hl as ->. exact Ha.
  - change (moves (a :: b :: q)) with (S (moves (b :: q))). cbn [layer].
    destruct Hc as [Hab Hc]. apply Forall_cons in Hb as [_ Hb].
    apply (IH _ b t); try assumption; [|reflexivity].
    apply list_elem_of_In, elem_of_remove_dups, list_elem_of_In, in_flat_map.
    exists a. split; [exact Ha|].
    apply knightNeighbours_complete; [exact Hab|].
    apply Forall_cons in Hb as [Hb _]. exact Hb.
Qed.

Lemma knightOffset_sym a b : knightOffset a b -> knightOffset b a.
Proof. unfold knightOffset. lia. Qed.

Lemma consecutive_snoc R l a b :
  consecutive R (l ++ [a]) -> R a b -> consecutive R ((l ++ [a]) ++ [b]).
Proof.
  intros H Hab. induction l as [|x l IH].
  - simpl. tauto.
  - destruct l as [|y l].
    + simpl in *. tauto.
    + simpl in H |- *. destruct H as [Hxy H]. split; [exact Hxy|].
      apply IH, H.
Qed.

Lemma consecutive_rev p : consecutive knightOffset p -> consecutive knightOffset (rev p).
Proof.
  induction p as [|a p IH]; [trivial|].
  destruct p as [|b p]; [trivial|].
  intros [Hab H]. specialize (IH H).
  change (rev (a :: b :: p)) with ((rev p ++ [b]) ++ [a]).
  apply consecutive_snoc; [exact IH | apply knightOffset_sym, Hab].
Qed.

Lemma rev_reverse_eq (p : list vertex) : rev p = reverse p.
Proof. unfold reverse. apply rev_alt. Qed.

Lemma walk_rev s t q : walk s t q -> walk t s (rev q).
Proof.
  intros [[Hh [Hl Hc]] Hb]. repeat split.
  - rewrite rev_reverse_eq, head_reverse. exact Hl.
  - rewrite rev_reverse_eq, last_reverse. exact Hh.
  - apply consecutive_rev, Hc.
  - apply Forall_rev, Hb.
Qed.

Lemma moves_rev (q : list vertex) : moves (rev q) = moves q.
Proof. unfold moves. rewrite length_rev. reflexivity. Qed.

(** No walk from [s] to [t] is shorter than the breadth-first path. *)
Lemma bfs_shortest s t explored p q :
  onBoard s -> onBoard t ->
  found knightMovesBFS s t = Some (explored, p) ->
  walk s t q -> (moves p <= moves q)%nat.
Proof.
  intros Hs Ht Hf [[Hh [Hl Hc]] Hb].
  destruct (bfs_on_board s t Hs Ht) as (e' & p' & Hf' & _ & _ & Hmin).
  rewrite Hf in Hf'. simplify_eq.
  destruct (Nat.le_gt_cases (moves p') (moves q)) as [Hle|Hlt]; [exact Hle|].
  specialize (Hmin _ Hlt).
  assert (In t (layer (moves q) [s])) as Hin
    by (apply (walk_layer q [s] s t); simpl; auto).
  apply isVertexInArray_In in Hin. congruence.
Qed.

(** ** Running earlier calls *)

Lemma found_run search s t explored p :
  found search s t = Some (explored, p) ->
  exists g', search 64%nat newGraph s t = Some (g', explored, Return (Some p)).
Proof.
  unfold found. intros H.
  destruct (search 64%nat newGraph s t) as [[[g' e'] c]|]; [|discriminate].
  destruct c as [[p'|]|]; try discriminate. simplify_eq. eauto.
Qed.

Lemma newGraph_state : newGraph = withPrevious ∅ newGraph.
Proof. rewrite <- previous_newGraph. apply sameBoard_refl. Qed.

Lemma runCalls_state cs : forall old,
  Forall callOnBoard cs ->
  exists old', runCalls 64 (withPrevious old newGraph) cs = Some (withPrevious old' newGraph).
Proof.
  induction cs as [|c cs IH]; intros old Hcs.
  - exists old. reflexivity.
  - apply Forall_cons in Hcs as [Hc Hcs]. cbn [runCalls].
    assert (exists old1 explored p,
               runCall 64 (withPrevious old newGraph) c
               = Some (withPrevious old1 newGraph, explored, Return (Some p)))
      as (old1 & explored & p & Hrun).
    { destruct c as [s t|s t]; destruct Hc as [Hs Ht]; cbn [runCall].
      - destruct (bfs_on_board s t Hs Ht) as (explored & p & Hf & _).
        destruct (knightMovesBFS_any_state s t explored p Hf old 0) as [old1 H1].
        eauto.
      - destruct (dfs_on_board s t Hs Ht) as (explored & p & Hf & _).
        destruct (knightMovesDFS_any_state s t explored p Hf old 0) as [old1 H1].
        eauto. }
    rewrite Hrun. cbn [mbind option_bind fst]. apply IH, Hcs.
Qed.

(** ** The edge lists *)

Lemma edges_sweep : forallb (edgesOkb (edgesOf newGraph)) squares = true.
Proof. vm_compute. reflexivity. Qed.

Lemma edgesOkb_spec E a :
  edgesOkb E a = true ->
  ~ In a (E a) /\
  (2 <= length (E a) <= 8)%nat /\
  (2 <= row a <= 5 -> 2 <= column a <= 5 -> length (E a) = 8%nat) /\
  forall b, onBoard b -> In a (E b) <-> In b (E a).
Proof.
  unfold edgesOkb. intros H.
  apply andb_true_iff in H as [H H5]. apply andb_true_iff in H as [H H4].
  apply andb_true_iff in H as [H H3]. apply andb_true_iff in H as [H1 H2].
  apply Nat.leb_le in H2, H3. split; [|split; [lia|split]].
  - intros Hin. apply isVertexInArray_In in Hin. rewrite Hin in H1. discriminate.
  - intros Hr Hc.
    assert ((2 <=? row a) && (row a <=? 5) && (2 <=? column a) && (column a <=? 5) = true)
      as Hmid by (rewrite !andb_true_iff, !Z.leb_le; lia).
    rewrite Hmid in H4. apply Nat.eqb_eq, H4.
  - intros b Hb. rewrite forallb_forall in H5.
    specialize (H5 b (onBoard_squares b Hb)). apply eqb_prop in H5.
    rewrite <- !isVertexInArray_In, H5. reflexivity.
Qed.

Lemma edges_on_board a :
  onBoard a ->
  ~ In a (edgesOf newGraph a) /\
  (2 <= length (edgesOf newGraph a) <= 8)%nat /\
  (2 <= row a <= 5 -> 2 <= column a <= 5 -> length (edgesOf newGraph a) = 8%nat) /\
  forall b, onBoard b -> In a (edgesOf newGraph b) <-> In b (edgesOf newGraph a).
Proof.
  intros Ha. apply edgesOkb_spec.
  pose proof edges_sweep as H. rewrite forallb_forall in H.
  exact (H a (onBoard_squares a Ha)).
Qed.

(** ** Board lookups of the driver *)

Lemma index_map {A : Type} (f : Z -> A) (i : Z) :
  index (map f (seqZ 0 8)) i = if (0 <=? i) && (i <? 8) then Some (f i) else None.
Proof.
  unfold index. change (map f (seqZ 0 8)) with (f <$> seqZ 0 8).
  destruct (Z.leb_spec 0 i) as [H0|H0]; [|reflexivity].
  destruct (Z.ltb_spec i 8) as [H8|H8]; simpl andb; cbv iota.
  - rewrite list_lookup_fmap, (lookup_seqZ_lt 0 8 (Z.to_nat i)) by lia.
    simpl. f_equal. f_equal. lia.
  - rewrite list_lookup_fmap, (lookup_seqZ_ge 0 8 (Z.to_nat i)) by lia.
    reflexivity.
Qed.

Lemma index_rows (r : Z) :
  index (board newGraph) r
  = if (0 <=? r) && (r <? 8) then Some (map (fun c => (r, c)) (seqZ 0 8)) else None.
Proof.
  rewrite board_newGraph.
  exact (index_map (fun r => map (fun c => (r, c)) (seqZ 0 8)) r).
Qed.

Lemma index_columns (r c : Z) :
  index (map (fun c => (r, c)) (seqZ 0 8)) c
  = if (0 <=? c) && (c <? 8) then Some (r, c) else None.
Proof. exact (index_map (fun c => (r, c)) c). Qed.

Lemma boardLookup_state old r c :
  boardLookup (withPrevious old newGraph) r c
  = if (0 <=? r) && (r <? 8)
    then inr (if (0 <=? c) && (c <? 8) then Object (r, c) else Undefined)
    else inl TypeError.
Proof.
  unfold boardLookup. change (board (withPrevious old newGraph)) with (board newGraph).
  rewrite index_rows. destruct ((0 <=? r) && (r <? 8)); [|reflexivity].
  rewrite index_columns. destruct ((0 <=? c) && (c <? 8)); reflexivity.
Qed.

Lemma boardAt_newGraph r c :
  0 <= r < 8 -> 0 <= c < 8 -> boardAt newGraph r c = Some (r, c).
Proof.
  intros Hr Hc. unfold boardAt. rewrite index_rows.
  replace ((0 <=? r) && (r <? 8)) with true
    by (symmetry; rewrite andb_true_iff, Z.leb_le, Z.ltb_lt; lia).
  cbn [mbind option_bind]. rewrite index_columns.
  replace ((0 <=? c) && (c <? 8)) with true
    by (symmetry; rewrite andb_true_iff, Z.leb_le, Z.ltb_lt; lia).
  reflexivity.
Qed.

(** * The claims *)

Lemma walk_nonempty s t p : walk s t p -> length p = S (moves p).
Proof. intros [[Hh _] _]. destruct p; [discriminate|reflexivity]. Qed.

(** C1. For every pair of board squares, in every state of the instance,
    [knightMovesBFS] returns a path that is a walk of the knight-move graph
    from start to goal, and no walk from start to goal has fewer moves: the
    number of moves of the returned path is the graph distance. *)
Theorem bfs_path_is_shortest (old : gmap vertex vertex) (n : nat) (s t : vertex) :
  onBoard s -> onBoard t ->
  exists g' explored p,
    knightMovesBFS (64 + n) (withPrevious old newGraph) s t
    = Some (g', explored, Return (Some p)) /\
    walk s t p /\
    forall q, walk s t q -> (moves p <= moves q)%nat.
Proof.
  intros Hs Ht.
  destruct (bfs_on_board s t Hs Ht) as (explored & p & Hf & Hw & _ & _).
  destruct (knightMovesBFS_any_state s t explored p Hf old n) as [old' Hrun].
  exists (withPrevious old' newGraph), explored, p.
  split; [exact Hrun|]. split; [exact Hw|].
  intros q Hq. exact (bfs_shortest s t explored p q Hs Ht Hf Hq).
Qed.

Lemma bfs_path_is_shortest_witness :
  exists g' explored p,
    knightMovesBFS (64 + 0) (withPrevious ∅ newGraph) (0, 0) (7, 7)
    = Some (g', explored, Return (Some p)) /\
    walk (0, 0) (7, 7) p /\
    forall q, walk (0, 0) (7, 7) q -> (moves p <= moves q)%nat.
Proof.
  apply (bfs_path_is_shortest ∅ 0 (0, 0) (7, 7)); unfold onBoard, row, column; simpl; lia.
Defined.

(** C2. For every pair of board squares, in every state of the instance,
    the path returned by [knightMovesBFS] and the path returned by
    [knightMovesDFS] start with the coordinates of the start square, end with
    those of the goal square, and move by a legal knight offset at every
    step. *)
Theorem returned_paths_are_knight_paths (old : gmap vertex vertex) (n : nat) (s t : vertex) :
  onBoard s -> onBoard t ->
  (exists g' explored p,
      knightMovesBFS (64 + n) (withPrevious old newGraph) s t
      = Some (g', explored, Return (Some p)) /\ pathFromTo s t p) /\
  (exists g' explored p,
      knightMovesDFS (64 + n) (withPrevious old newGraph) s t
      = Some (g', explored, Return (Some p)) /\ pathFromTo s t p).
Proof.
  intros Hs Ht. split.
  - destruct (bfs_on_board s t Hs Ht) as (explored & p & Hf & [Hp _] & _).
    destruct (knightMovesBFS_any_state s t explored p Hf old n) as [old' Hrun].
    eauto 6.
  - destruct (dfs_on_board s t Hs Ht) as (explored & p & Hf & [Hp _] & _).
    destruct (knightMovesDFS_any_state s t explored p Hf old n) as [old' Hrun].
    eauto 6.
Qed.

Lemma returned_paths_are_knight_paths_witness :
  (exists g' explored p,
      knightMovesBFS (64 + 0) (withPrevious ∅ newGraph) (0, 0) (3, 3)
      = Some (g', explored, Return (Some p)) /\ pathFromTo (0, 0) (3, 3) p) /\
  (exists g' explored p,
      knightMovesDFS (64 + 0) (withPrevious ∅ newGraph) (0, 0) (3, 3)
      = Some (g', explored, Return (Some p)) /\ pathFromTo (0, 0) (3, 3) p).
Proof.
  apply (returned_paths_are_knight_paths ∅ 0 (0, 0) (3, 3));
    unfold onBoard, row, column; simpl; lia.
Defined.

(** C3. With the goal equal to the start, both searches stop in their first
    iteration and return the one-element path; this holds for any vertex and
    any state of the graph, which is left unchanged. *)
Theorem same_square_path (fuel : nat) (g : Graph) (x : vertex) :
  knightMovesBFS (S fuel) g x x = Some (g, [x], Return (Some [(row x, column x)])) /\
  knightMovesDFS (S fuel) g x x = Some (g, [x], Return (Some [(row x, column x)])).
Proof.
  unfold knightMovesBFS, knightMovesDFS. cbn [bfsLoop dfsLoop pop rev app].
  rewrite !Z.eqb_refl. cbn [andb].
  unfold reconstructPath. cbn [reconstructLoop].
  rewrite decide_True by reflexivity. split; reflexivity.
Qed.

(** C4, as the code has it.  From (0,0) to (3,3) [knightMovesBFS] returns
    the path (0,0), (1,2), (3,3), which has two moves, after removing six
    vertices from the queue. *)
Theorem bfs_corner_to_33 (old : gmap vertex vertex) (n : nat) :
  exists g',
    knightMovesBFS (64 + n) (withPrevious old newGraph) (0, 0) (3, 3)
    = Some (g', [(0, 0); (1, 2); (2, 1); (0, 4); (2, 4); (3, 3)],
            Return (Some [(0, 0); (1, 2); (3, 3)])) /\
    moves [(0, 0); (1, 2); (3, 3)] = 2%nat.
Proof.
  assert (found knightMovesBFS (0, 0) (3, 3)
          = Some ([(0, 0); (1, 2); (2, 1); (0, 4); (2, 4); (3, 3)],
                  [(0, 0); (1, 2); (3, 3)])) as Hf by (vm_compute; reflexivity).
  destruct (knightMovesBFS_any_state _ _ _ _ Hf old n) as [old' Hrun].
  eauto.
Qed.

(** C4, as stated, fails: the path returned for (0,0) and (3,3) does not
    have four moves. *)
Lemma bfs_corner_to_33_not_four_moves :
  ~ exists g' explored p,
      knightMovesBFS 64 newGraph (0, 0) (3, 3) = Some (g', explored, Return (Some p)) /\
      moves p = 4%nat.
Proof.
  intros (g' & explored & p & Hrun & Hm).
  assert (outcome (knightMovesBFS 64 newGraph (0, 0) (3, 3))
          = Some ([(0, 0); (1, 2); (2, 1); (0, 4); (2, 4); (3, 3)],
                  Return (Some [(0, 0); (1, 2); (3, 3)]))) as Ho
      by (vm_compute; reflexivity).
  rewrite Hrun in Ho. clear Hrun. cbn [outcome mbind option_bind fst snd] in Ho.
  injection Ho as _ Hp. subst p. discriminate Hm.
Qed.

(** C5. In the constructed graph a square is in the edge list of another
    exactly when the other is in its own, and no square is in its own edge
    list. *)
Theorem edges_symmetric_irreflexive (a b : vertex) :
  onBoard a -> onBoard b ->
  (In a (edgesOf newGraph b) <-> In b (edgesOf newGraph a)) /\
  ~ In a (edgesOf newGraph a).
Proof.
  intros Ha Hb. destruct (edges_on_board a Ha) as (Hirr & _ & _ & Hsym).
  split; [exact (Hsym b Hb) | exact Hirr].
Qed.

Lemma edges_symmetric_irreflexive_witness :
  (In (0, 0) (edgesOf newGraph (1, 2)) <-> In (1, 2) (edgesOf newGraph (0, 0))) /\
  ~ In (0, 0) (edgesOf newGraph (0, 0)).
Proof.
  apply (edges_symmetric_irreflexive (0, 0) (1, 2));
    unfold onBoard, row, column; simpl; lia.
Defined.

(** C6. In the constructed graph every square has between two and eight
    edges; the corner (0,0) has exactly two, and a square whose row and column
    both lie in 2..5 has exactly eight. *)
Theorem edge_count_bounds (a : vertex) :
  onBoard a ->
  (2 <= length (edgesOf newGraph a) <= 8)%nat /\
  length (edgesOf newGraph (0, 0)) = 2%nat /\
  (2 <= row a <= 5 -> 2 <= column a <= 5 -> length (edgesOf newGraph a) = 8%nat).
Proof.
  intros Ha. destruct (edges_on_board a Ha) as (_ & Hlen & Hmid & _).
  split; [exact Hlen|]. split; [|exact Hmid].
  vm_compute. reflexivity.
Qed.

Lemma edge_count_bounds_witness :
  (2 <= length (edgesOf newGraph (3, 4)%Z) <= 8)%nat /\
  length (edgesOf newGraph (0, 0)) = 2%nat /\
  (2 <= row (3, 4) <= 5 -> 2 <= column (3, 4) <= 5 ->
   length (edgesOf newGraph (3, 4)) = 8%nat).
Proof.
  apply (edge_count_bounds (3, 4)); unfold onBoard, row, column; simpl; lia.
Defined.

(** C7, as the code has it.  Neither search checks its arguments.  Called
    as the driver does, on [board[row][column]], with a start or goal
    coordinate outside the board, the call ends in an uncaught [TypeError]:
    from indexing the missing row, or from reading [row] of the [undefined]
    vertex in the first iteration.  The graph is left unchanged. *)
Theorem off_board_lookup_throws (old : gmap vertex vertex) (fuel : nat) (start goal : vertex) :
  ~ (onBoard start /\ onBoard goal) ->
  driverCall knightMovesBFS fuel (withPrevious old newGraph) start goal
  = Some (withPrevious old newGraph, Throw TypeError) /\
  driverCall knightMovesDFS fuel (withPrevious old newGraph) start goal
  = Some (withPrevious old newGraph, Throw TypeError).
Proof.
  destruct start as [r1 c1], goal as [r2 c2].
  unfold onBoard, row, column, driverCall; cbn [fst snd].
  intros Hoff. rewrite !boardLookup_state.
  destruct (Z.leb_spec 0 r1), (Z.ltb_spec r1 8); cbn [andb]; try (split; reflexivity).
  destruct (Z.leb_spec 0 r2), (Z.ltb_spec r2 8); cbn [andb]; try (split; reflexivity).
  destruct (Z.leb_spec 0 c1), (Z.ltb_spec c1 8); cbn [andb]; try (split; reflexivity).
  destruct (Z.leb_spec 0 c2), (Z.ltb_spec c2 8); cbn [andb]; try (split; reflexivity).
  lia.
Qed.

Lemma off_board_lookup_throws_witness :
  driverCall knightMovesBFS 64 (withPrevious ∅ newGraph) (0, 8) (0, 0)
  = Some (withPrevious ∅ newGraph, Throw TypeError) /\
  driverCall knightMovesDFS 64 (withPrevious ∅ newGraph) (0, 8) (0, 0)
  = Some (withPrevious ∅ newGraph, Throw TypeError).
Proof.
  apply (off_board_lookup_throws ∅ 64 (0, 8) (0, 0)).
  unfold onBoard, row, column; simpl; lia.
Defined.

(** C7, as stated, fails: given a vertex whose row is outside the board,
    [knightMovesBFS] does not fail.  It filters the moves of that vertex like
    those of any other and returns a path that starts off the board. *)
Lemma off_board_vertex_is_searched :
  ~ onBoard (8, 0) /\
  outcome (knightMovesBFS 64 newGraph (8, 0) (6, 1))
  = Some ([(8, 0); (6, 1)], Return (Some [(8, 0); (6, 1)])).
Proof.
  split.
  - unfold onBoard, row, column; simpl; lia.
  - vm_compute. reflexivity.
Qed.

(** C8. For every pair of board squares, the breadth-first paths from start
    to goal and from goal to start have the same length, whatever the state
    of the instance at either call. *)
Theorem bfs_length_symmetric (old old' : gmap vertex vertex) (n n' : nat) (s t : vertex) :
  onBoard s -> onBoard t ->
  exists g1 e1 p1 g2 e2 p2,
    knightMovesBFS (64 + n) (withPrevious old newGraph) s t
    = Some (g1, e1, Return (Some p1)) /\
    knightMovesBFS (64 + n') (withPrevious old' newGraph) t s
    = Some (g2, e2, Return (Some p2)) /\
    length p1 = length p2.
Proof.
  intros Hs Ht.
  destruct (bfs_on_board s t Hs Ht) as (e1 & p1 & Hf1 & Hw1 & _ & _).
  destruct (bfs_on_board t s Ht Hs) as (e2 & p2 & Hf2 & Hw2 & _ & _).
  destruct (knightMovesBFS_any_state s t e1 p1 Hf1 old n) as [o1 Hrun1].
  destruct (knightMovesBFS_any_state t s e2 p2 Hf2 old' n') as [o2 Hrun2].
  exists (withPrevious o1 newGraph), e1, p1, (withPrevious o2 newGraph), e2, p2.
  split; [exact Hrun1|]. split; [exact Hrun2|].
  pose proof (bfs_shortest s t e1 p1 (rev p2) Hs Ht Hf1 (walk_rev _ _ _ Hw2)) as H12.
  pose proof (bfs_shortest t s e2 p2 (rev p1) Ht Hs Hf2 (walk_rev _ _ _ Hw1)) as H21.
  rewrite moves_rev in H12, H21.
  rewrite (walk_nonempty _ _ _ Hw1), (walk_nonempty _ _ _ Hw2). lia.
Qed.

Lemma bfs_length_symmetric_witness :
  exists g1 e1 p1 g2 e2 p2,
    knightMovesBFS (64 + 0) (withPrevious ∅ newGraph) (0, 0) (3, 3)
    = Some (g1, e1, Return (Some p1)) /\
    knightMovesBFS (64 + 0) (withPrevious ∅ newGraph) (3, 3) (0, 0)
    = Some (g2, e2, Return (Some p2)) /\
    length p1 = length p2.
Proof.
  apply (bfs_length_symmetric ∅ ∅ 0 0 (0, 0) (3, 3));
    unfold onBoard, row, column; simpl; lia.
Defined.

(** C9. For every pair of board squares, in every state of the instance,
    both searches finish with fuel 64, that is within 64 iterations of the
    loop that removes a vertex from the frontier.  Each iteration appends the
    removed vertex to [explored], which ends with at most 64 entries and
    without repetition: no vertex is removed, hence inserted, twice. *)
Theorem searches_finish_in_64_steps (old : gmap vertex vertex) (s t : vertex) :
  onBoard s -> onBoard t ->
  (exists g' explored c,
      knightMovesBFS 64 (withPrevious old newGraph) s t = Some (g', explored, c) /\
      (length explored <= 64)%nat /\ NoDup explored) /\
  (exists g' explored c,
      knightMovesDFS 64 (withPrevious old newGraph) s t = Some (g', explored, c) /\
      (length explored <= 64)%nat /\ NoDup explored).
Proof.
  intros Hs Ht. split.
  - destruct (bfs_on_board s t Hs Ht) as (explored & p & Hf & _ & [Hlen Hnd] & _).
    destruct (knightMovesBFS_any_state s t explored p Hf old 0) as [old' Hrun].
    exists (withPrevious old' newGraph), explored, (Return (Some p)).
    split; [exact Hrun|]. split; assumption.
  - destruct (dfs_on_board s t Hs Ht) as (explored & p & Hf & _ & [Hlen Hnd]).
    destruct (knightMovesDFS_any_state s t explored p Hf old 0) as [old' Hrun].
    exists (withPrevious old' newGraph), explored, (Return (Some p)).
    split; [exact Hrun|]. split; assumption.
Qed.

Lemma searches_finish_in_64_steps_witness :
  (exists g' explored c,
      knightMovesBFS 64 (withPrevious ∅ newGraph) (0, 0) (7, 7) = Some (g', explored, c) /\
      (length explored <= 64)%nat /\ NoDup explored) /\
  (exists g' explored c,
      knightMovesDFS 64 (withPrevious ∅ newGraph) (0, 0) (7, 7) = Some (g', explored, c) /\
      (length explored <= 64)%nat /\ NoDup explored).
Proof.
  apply (searches_finish_in_64_steps ∅ (0, 0) (7, 7));
    unfold onBoard, row, column; simpl; lia.
Defined.

(** C10. After any sequence of earlier searches between board squares on
    one instance, a search between board squares returns what it returns on
    a freshly constructed graph: the same path and the same [explored] array.
    The predecessors left by earlier searches are never read. *)
Theorem earlier_searches_do_not_matter (cs : list call) (s t : vertex) :
  Forall callOnBoard cs -> onBoard s -> onBoard t ->
  exists g,
    runCalls 64 newGraph cs = Some g /\
    (exists explored p,
        outcome (knightMovesBFS 64 newGraph s t) = Some (explored, Return (Some p)) /\
        outcome (knightMovesBFS 64 g s t) = Some (explored, Return (Some p))) /\
    (exists explored p,
        outcome (knightMovesDFS 64 newGraph s t) = Some (explored, Return (Some p)) /\
        outcome (knightMovesDFS 64 g s t) = Some (explored, Return (Some p))).
Proof.
  intros Hcs Hs Ht.
  destruct (runCalls_state cs ∅ Hcs) as [old Hcalls].
  rewrite <- newGraph_state in Hcalls.
  exists (withPrevious old newGraph). split; [exact Hcalls|]. split.
  - destruct (bfs_on_board s t Hs Ht) as (explored & p & Hf & _).
    destruct (found_run _ _ _ _ _ Hf) as [g0 Hfresh].
    destruct (knightMovesBFS_any_state s t explored p Hf old 0) as [old' Hrun].
    exists explored, p. split.
    + rewrite Hfresh. reflexivity.
    + change (64 + 0)%nat with 64%nat in Hrun. rewrite Hrun. reflexivity.
  - destruct (dfs_on_board s t Hs Ht) as (explored & p & Hf & _).
    destruct (found_run _ _ _ _ _ Hf) as [g0 Hfresh].
    destruct (knightMovesDFS_any_state s t explored p Hf old 0) as [old' Hrun].
    exists explored, p. split.
    + rewrite Hfresh. reflexivity.
    + change (64 + 0)%nat with 64%nat in Hrun. rewrite Hrun. reflexivity.
Qed.

Lemma earlier_searches_do_not_matter_witness :
  exists g,
    runCalls 64 newGraph [CallDFS (0, 0) (7, 7); CallBFS (3, 3) (0, 0)] = Some g /\
    (exists explored p,
        outcome (knightMovesBFS 64 newGraph (0, 0) (3, 3))
        = Some (explored, Return (Some p)) /\
        outcome (knightMovesBFS 64 g (0, 0) (3, 3)) = Some (explored, Return (Some p))) /\
    (exists explored p,
        outcome (knightMovesDFS 64 newGraph (0, 0) (3, 3))
        = Some (explored, Return (Some p)) /\
        outcome (knightMovesDFS 64 g (0, 0) (3, 3)) = Some (explored, Return (Some p))).
Proof.
  apply (earlier_searches_do_not_matter
           [CallDFS (0, 0) (7, 7); CallBFS (3, 3) (0, 0)] (0, 0) (3, 3)).
  - repeat constructor; unfold onBoard, row, column; simpl; lia.
  - unfold onBoard, row, column; simpl; lia.
  - unfold onBoard, row, column; simpl; lia.
Defined.

(** * Further properties of the code *)

(** ** The board and the moves of a knight *)

Lemma omap_filter_id (P : vertex -> bool) (f : vertex -> option vertex) (l : list vertex) :
  (forall x, P x = true -> f x = Some x) -> omap f (List.filter P l) = List.filter P l.
Proof.
  intros Hf. induction l as [|x l IH]; [reflexivity|]. cbn [List.filter].
  destruct (P x) eqn:E; [|exact IH].
  cbn [omap list_omap]. rewrite (Hf x E). f_equal. exact IH.
Qed.

Lemma findAdjacents_filter g v :
  boardSize g = 8 ->
  (forall r c, 0 <= r < 8 -> 0 <= c < 8 -> boardAt g r c = Some (r, c)) ->
  findAdjacents g v = List.filter onBoardb (movePatterns v).
Proof.
  intros Hsize Hboard. unfold findAdjacents. rewrite Hsize.
  fold (movePatterns v).
  rewrite omap_filter_id.
  - apply List.filter_ext. intros [r c]. reflexivity.
  - intros [r c] H. rewrite !andb_true_iff, !Z.leb_le, !Z.ltb_lt in H.
    apply Hboard; lia.
Qed.

Lemma findAdjacents_state old v :
  findAdjacents (withPrevious old newGraph) v = List.filter onBoardb (movePatterns v).
Proof.
  apply findAdjacents_filter.
  - exact boardSize_newGraph.
  - exact boardAt_newGraph.
Qed.

Lemma movePatterns_offset v w : In w (movePatterns v) <-> knightOffset v w.
Proof.
  destruct v as [r c], w as [r' c'].
  unfold movePatterns, knightOffset, row, column; cbn [fst snd In]. split.
  - intros H.
    repeat (destruct H as [H|H]; [injection H as <- <-; lia|]). destruct H.
  - intros Hoff.
    assert (r' = r + (r' - r)) as Er by lia.
    assert (c' = c + (c' - c)) as Ec by lia.
    revert Er Ec. generalize (r' - r) (c' - c) Hoff. clear. intros dr dc Hoff Er Ec.
    subst r' c'.
    assert ((dr = -2 /\ dc = 1) \/ (dr = -1 /\ dc = 2) \/ (dr = 1 /\ dc = 2) \/
            (dr = 2 /\ dc = 1) \/ (dr = 2 /\ dc = -1) \/ (dr = 1 /\ dc = -2) \/
            (dr = -1 /\ dc = -2) \/ (dr = -2 /\ dc = -1)) as Hcases by lia.
    clear Hoff.
    repeat (destruct Hcases as [[-> ->]|Hcases]; [tauto|]).
    destruct Hcases as [-> ->]. tauto.
Qed.

Lemma movePatterns_NoDup v : NoDup (movePatterns v).
Proof.
  destruct v as [r c]. unfold movePatterns, row, column; cbn [fst snd].
  repeat (apply NoDup_cons_2;
          [rewrite list_elem_of_In; cbn [In]; intros H;
           repeat (destruct H as [H|H]; [injection H; lia|]); exact H|]).
  apply NoDup_nil_2.
Qed.

Lemma findAdjacents_state_In old v w :
  In w (findAdjacents (withPrevious old newGraph) v) <-> onBoard w /\ knightOffset v w.
Proof.
  rewrite findAdjacents_state, filter_In, movePatterns_offset, onBoardb_spec. tauto.
Qed.

(** X1. In every state of the instance and for every vertex, on the board
    or not, [#findAdjacents] returns exactly the squares of the board one
    legal knight offset away, each once, hence at most eight. *)
Theorem findAdjacents_legal_moves (old : gmap vertex vertex) (v w : vertex) :
  (In w (findAdjacents (withPrevious old newGraph) v) <-> onBoard w /\ knightOffset v w) /\
  NoDup (findAdjacents (withPrevious old newGraph) v) /\
  (length (findAdjacents (withPrevious old newGraph) v) <= 8)%nat.
Proof.
  split; [|split].
  - apply findAdjacents_state_In.
  - rewrite findAdjacents_state.
    apply NoDup_ListNoDup, List.NoDup_filter, NoDup_ListNoDup, movePatterns_NoDup.
  - rewrite findAdjacents_state.
    etransitivity; [apply List.filter_length_le|]. reflexivity.
Qed.

(** X2. The board of the constructed graph, in every state of the
    instance: [board[r][c]] throws for a row outside 0..7, is [undefined]
    for a column outside 0..7, and otherwise is the vertex whose fields are
    [r] and [c]. *)
Theorem board_lookup (old : gmap vertex vertex) (r c : Z) :
  boardLookup (withPrevious old newGraph) r c
  = if (0 <=? r) && (r <? 8)
    then inr (if (0 <=? c) && (c <? 8) then Object (r, c) else Undefined)
    else inl TypeError.
Proof. apply boardLookup_state. Qed.

(** ** Linking two vertices *)

Lemma edgesOf_withEdges e g w : edgesOf (withEdges e g) w = default [] (e !! w).
Proof. reflexivity. Qed.

(** The edge lists after [#createEdge], vertex by vertex. *)
Lemma createEdge_edgesOf vertex1 vertex2 g w :
  edgesOf (createEdge vertex1 vertex2 g) w
  = if decide (w = vertex2)
    then (if decide (vertex1 = vertex2)
          then edgesOf g vertex1 ++ [vertex2]
          else edgesOf g vertex2) ++ [vertex1]
    else if decide (w = vertex1)
         then edgesOf g vertex1 ++ [vertex2]
         else edgesOf g w.
Proof.
  unfold createEdge. cbv zeta. rewrite !edgesOf_withEdges.
  change (edges (withEdges ?e g)) with e.
  destruct (decide (w = vertex2)) as [->|Hw2].
  - rewrite lookup_insert_eq. cbn [default].
    destruct (decide (vertex1 = vertex2)) as [->|H12].
    + rewrite lookup_insert_eq. reflexivity.
    + rewrite lookup_insert_ne by exact H12. reflexivity.
  - rewrite lookup_insert_ne by congruence.
    destruct (decide (w = vertex1)) as [->|Hw1].
    + rewrite lookup_insert_eq. reflexivity.
    + rewrite lookup_insert_ne by congruence. reflexivity.
Qed.

Lemma edgeExists_In g vertex1 vertex2 :
  edgeExists g vertex1 vertex2 = true <-> In vertex1 (edgesOf g vertex2).
Proof.
  unfold edgeExists. cbv zeta. rewrite existsb_exists. split.
  - intros [w [Hw Heq]]. apply andb_true_iff in Heq as [H1 H2].
    apply Z.eqb_eq in H1, H2. destruct vertex1, w; unfold row, column in *; simpl in *.
    subst. exact Hw.
  - intros H. exists vertex1. split; [exact H|]. rewrite !Z.eqb_refl. reflexivity.
Qed.

(** X3. After [#createEdge] each of the two vertices is found in the
    edge list of the other, so [#edgeExists] holds in both directions,
    whatever the graph was. *)
Theorem createEdge_edgeExists (g : Graph) (vertex1 vertex2 : vertex) :
  edgeExists (createEdge vertex1 vertex2 g) vertex1 vertex2 = true /\
  edgeExists (createEdge vertex1 vertex2 g) vertex2 vertex1 = true.
Proof.
  rewrite !edgeExists_In, !createEdge_edgesOf. split.
  - rewrite decide_True by reflexivity. apply in_or_app. right. left. reflexivity.
  - destruct (decide (vertex1 = vertex2)) as [->|H12].
    + apply in_or_app. right. left. reflexivity.
    + rewrite decide_True by reflexivity. apply in_or_app. right. left. reflexivity.
Qed.

(** X4. [#createEdge] only appends: every edge list keeps its entries as a
    prefix, the lists of vertices other than the two are unchanged, and the
    board, its size and the predecessors are untouched. *)
Theorem createEdge_frame (g : Graph) (vertex1 vertex2 w : vertex) :
  (exists added, edgesOf (createEdge vertex1 vertex2 g) w = edgesOf g w ++ added) /\
  (w <> vertex1 -> w <> vertex2 -> edgesOf (createEdge vertex1 vertex2 g) w = edgesOf g w) /\
  boardSize (createEdge vertex1 vertex2 g) = boardSize g /\
  board (createEdge vertex1 vertex2 g) = board g /\
  previous (createEdge vertex1 vertex2 g) = previous g.
Proof.
  rewrite createEdge_edgesOf. split; [|split; [|repeat split]].
  - destruct (decide (w = vertex2)) as [->|Hw2].
    + destruct (decide (vertex1 = vertex2)) as [->|H12].
      * exists [vertex2; vertex2]. rewrite <- app_assoc. reflexivity.
      * exists [vertex1]. reflexivity.
    + destruct (decide (w = vertex1)) as [->|Hw1].
      * exists [vertex2]. reflexivity.
      * exists []. rewrite app_nil_r. reflexivity.
  - intros H1 H2. rewrite !decide_False by assumption. reflexivity.
Qed.

(** ** Connecting a vertex with its neighbours *)










(** ** Walking back along the predecessors *)

Lemma consecutive_reverse (R : vertex -> vertex -> Prop) p :
  consecutive R p -> consecutive (fun a b => R b a) (rev p).
Proof.
  induction p as [|a p IH]; [trivial|].
  destruct p as [|b p]; [trivial|].
  intros [Hab H]. specialize (IH H).
  change (rev (a :: b :: p)) with ((rev p ++ [b]) ++ [a]).
  apply consecutive_snoc; [exact IH | exact Hab].
Qed.

Lemma reconstructLoop_chain (fuel : nat) g s : forall v acc path,
  reconstructLoop fuel g v s acc = Some (inr path) ->
  exists chain,
    path = acc ++ chain /\ head (chain ++ [s]) = Some v /\ linkedBack g (chain ++ [s]).
Proof.
  induction fuel as [|fuel IH]; intros v acc path; cbn [reconstructLoop].
  - case_decide as Hv; [|discriminate]. intros Hp. simplify_eq.
    exists []. rewrite app_nil_r. repeat split.
  - case_decide as Hv.
    + intros Hp. simplify_eq. exists []. rewrite app_nil_r. repeat split.
    + destruct (previous g !! v) as [v'|] eqn:E; [|discriminate].
      intros Hp. destruct (IH _ _ _ Hp) as (chain & -> & Hh & Hl).
      exists (v :: chain). rewrite <- app_assoc. split; [destruct v; reflexivity|].
      split; [reflexivity|].
      change ((v :: chain) ++ [s]) with (v :: (chain ++ [s])).
      destruct (chain ++ [s]) as [|b rest]; [discriminate|].
      cbn in Hh. simplify_eq. split; [exact E | exact Hl].
Qed.

(** X6. Whatever the predecessors are, a path returned by
    [#reconstructPath] begins with the initial vertex, ends with the vertex it
    was asked to walk back from, and every element is the [previous] of the
    one after it. *)
Theorem reconstructPath_shape (fuel : nat) (g : Graph) (v s : vertex) (p : list vertex) :
  reconstructPath fuel g v s = Some (Return (Some p)) ->
  head p = Some s /\ last p = Some v /\ linked g p.
Proof.
  unfold reconstructPath.
  destruct (reconstructLoop fuel g v s []) as [[e|path]|] eqn:E; try discriminate.
  intros Hp. injection Hp as <-.
  destruct (reconstructLoop_chain _ _ _ _ _ _ E) as (chain & -> & Hh & Hl).
  cbn [app]. replace (row s, column s) with s by (destruct s; reflexivity).
  repeat split.
  - rewrite rev_reverse_eq, head_reverse. apply last_snoc.
  - rewrite rev_reverse_eq, last_reverse. exact Hh.
  - apply (consecutive_reverse _ _ Hl).
Qed.

Lemma reconstructPath_shape_witness :
  head [(0, 0); (1, 2)] = Some (0, 0) /\ last [(0, 0); (1, 2)] = Some (1, 2) /\
  linked (withPrevious {[ (1, 2) := (0, 0) ]} newGraph) [(0, 0); (1, 2)].
Proof.
  apply (reconstructPath_shape 1 (withPrevious {[ (1, 2) := (0, 0) ]} newGraph) (1, 2) (0, 0)).
  vm_compute. reflexivity.
Defined.

(** X7. If the predecessors lead from a vertex around a set of vertices
    that does not hold the initial vertex, the loop of [#reconstructPath]
    never ends: no amount of fuel gives a result.  (A vertex that is its own
    predecessor is the smallest such set.) *)
Theorem reconstructPath_cycle (fuel : nat) (g : Graph) (cycle : list vertex) (v s : vertex) :
  In v cycle -> ~ In s cycle ->
  (forall x, In x cycle -> exists y, previous g !! x = Some y /\ In y cycle) ->
  reconstructPath fuel g v s = None.
Proof.
  intros Hv Hs Hclosed. unfold reconstructPath.
  assert (forall acc, reconstructLoop fuel g v s acc = None) as ->; [|reflexivity].
  revert v Hv. induction fuel as [|fuel IH]; intros v Hv acc; cbn [reconstructLoop].
  - rewrite decide_False by congruence. reflexivity.
  - rewrite decide_False by congruence.
    destruct (Hclosed v Hv) as (y & -> & Hy). apply IH, Hy.
Qed.

Lemma reconstructPath_cycle_witness :
  reconstructPath 64 (withPrevious {[ (1, 2) := (1, 2) ]} newGraph) (1, 2) (0, 0) = None.
Proof.
  apply (reconstructPath_cycle 64 _ [(1, 2)]).
  - simpl. tauto.
  - simpl. intros [H|[]]. discriminate H.
  - intros x [<-|[]]. exists (1, 2). split; [reflexivity | simpl; tauto].
Defined.

Lemma linkedBack_cons g a l v :
  linkedBack g (a :: l ++ [v]) ->
  previous g !! a = Some (hd v l) /\ linkedBack g (l ++ [v]).
Proof. destruct l; cbn; tauto. Qed.

(** X8. When the walk back from a vertex follows the predecessors through
    [chain], never meeting the initial vertex, to a vertex [v] whose
    [previous] is [null], [#reconstructPath] throws a [TypeError]. *)
Theorem reconstructPath_null (fuel : nat) (g : Graph) (chain : list vertex) (v s : vertex) :
  linkedBack g (chain ++ [v]) -> ~ In s (chain ++ [v]) -> previous g !! v = None ->
  reconstructPath (length chain + S fuel) g (hd v chain) s = Some (Throw TypeError).
Proof.
  intros Hl Hs Hnull. unfold reconstructPath.
  assert (forall acc, reconstructLoop (length chain + S fuel) g (hd v chain) s acc
                      = Some (inl TypeError)) as ->; [|reflexivity].
  induction chain as [|a chain IH]; intros acc; cbn [length Nat.add reconstructLoop hd].
  - rewrite decide_False by (intros ->; apply Hs; left; reflexivity).
    rewrite Hnull. reflexivity.
  - rewrite decide_False by (intros ->; apply Hs; left; reflexivity).
    apply linkedBack_cons in Hl as [Ha Hl]. rewrite Ha.
    apply IH; [exact Hl|]. intros Hin. apply Hs. right. exact Hin.
Qed.

Lemma reconstructPath_null_witness :
  reconstructPath (length [(3, 3)] + 1) (withPrevious {[ (3, 3) := (1, 2) ]} newGraph)
                  (hd (1, 2) [(3, 3)]) (0, 0)
  = Some (Throw TypeError).
Proof.
  apply (reconstructPath_null 0 (withPrevious {[ (3, 3) := (1, 2) ]} newGraph)
                              [(3, 3)] (1, 2) (0, 0)).
  - simpl. split; [reflexivity | exact I].
  - simpl. intros [H|[H|[]]]; discriminate H.
  - reflexivity.
Defined.

(** ** What a search leaves behind *)

Lemma pop_snoc {A : Type} (l l' : list A) (v : A) : pop l = Some (v, l') -> l = l' ++ [v].
Proof.
  unfold pop. destruct (rev l) as [|x rest] eqn:E; [discriminate|].
  intros H. simplify_eq. rewrite <- (rev_involutive l), E. reflexivity.
Qed.

Lemma same_coordinates (v t : vertex) :
  (row v =? row t) && (column v =? column t) = true -> v = t.
Proof.
  destruct v, t. unfold row, column; cbn [fst snd].
  rewrite andb_true_iff, !Z.eqb_eq. intros [-> ->]. reflexivity.
Qed.













(** ** Edge lists and moves *)

Lemma edges_match_sweep :
  forallb (edgesMatchb (edgesOf newGraph) (findAdjacents newGraph)) squares = true.
Proof. vm_compute. reflexivity. Qed.

Lemma findAdjacents_newGraph_In v w :
  In w (findAdjacents newGraph v) <-> onBoard w /\ knightOffset v w.
Proof.
  rewrite (findAdjacents_filter newGraph v boardSize_newGraph boardAt_newGraph).
  rewrite filter_In, movePatterns_offset, onBoardb_spec. tauto.
Qed.

Lemma edgesMatchb_spec E F a :
  edgesMatchb E F a = true ->
  NoDup (E a) /\ (forall b, In b (E a) -> onBoard b) /\
  (forall b, onBoard b -> In b (E a) <-> In b (F a)).
Proof.
  unfold edgesMatchb. rewrite !andb_true_iff. intros [[H1 H2] H3].
  apply bool_decide_eq_true in H1. rewrite forallb_forall in H2, H3.
  split; [exact H1|]. split.
  - intros b Hb. apply onBoardb_spec, H2, Hb.
  - intros b Hb. specialize (H3 b (onBoard_squares b Hb)). apply eqb_prop in H3.
    rewrite <- !isVertexInArray_In, H3. reflexivity.
Qed.

(** X12. The edge list that construction leaves on a board square holds
    exactly the board squares one legal knight offset away, each of them
    once: [#connectAllAdjacents] stores every move and no duplicate. *)
Theorem edges_are_the_legal_moves (a b : vertex) :
  onBoard a ->
  NoDup (edgesOf newGraph a) /\
  (In b (edgesOf newGraph a) <-> onBoard b /\ knightOffset a b).
Proof.
  intros Ha.
  pose proof edges_match_sweep as H. rewrite forallb_forall in H.
  destruct (edgesMatchb_spec (edgesOf newGraph) (findAdjacents newGraph) a
              (H a (onBoard_squares a Ha))) as (Hnd & Hon & Hsame).
  split; [exact Hnd|]. split.
  - intros Hb.
    exact (proj1 (findAdjacents_newGraph_In a b) (proj1 (Hsame b (Hon b Hb)) Hb)).
  - intros [Hbo Hoff].
    exact (proj2 (Hsame b Hbo) (proj2 (findAdjacents_newGraph_In a b) (conj Hbo Hoff))).
Qed.

Lemma edges_are_the_legal_moves_witness :
  NoDup (edgesOf newGraph (4, 4)) /\
  (In (6, 5) (edgesOf newGraph (4, 4)) <-> onBoard (6, 5) /\ knightOffset (4, 4) (6, 5)).
Proof.
  apply (edges_are_the_legal_moves (4, 4) (6, 5)). unfold onBoard, row, column; simpl; lia.
Defined.

(** ** Comparing the two searches, and the calls of the driver *)

(** X13. For every pair of board squares and whatever the states of the
    instance, the depth-first path has at least as many moves as the
    breadth-first path. *)
Theorem dfs_not_shorter_than_bfs (old old' : gmap vertex vertex) (n n' : nat) (s t : vertex) :
  onBoard s -> onBoard t ->
  exists g1 e1 p1 g2 e2 p2,
    knightMovesBFS (64 + n) (withPrevious old newGraph) s t
    = Some (g1, e1, Return (Some p1)) /\
    knightMovesDFS (64 + n') (withPrevious old' newGraph) s t
    = Some (g2, e2, Return (Some p2)) /\
    (moves p1 <= moves p2)%nat.
Proof.
  intros Hs Ht.
  destruct (bfs_on_board s t Hs Ht) as (e1 & p1 & Hf1 & _).
  destruct (dfs_on_board s t Hs Ht) as (e2 & p2 & Hf2 & Hw2 & _).
  destruct (knightMovesBFS_any_state s t e1 p1 Hf1 old n) as [o1 Hrun1].
  destruct (knightMovesDFS_any_state s t e2 p2 Hf2 old' n') as [o2 Hrun2].
  exists (withPrevious o1 newGraph), e1, p1, (withPrevious o2 newGraph), e2, p2.
  split; [exact Hrun1|]. split; [exact Hrun2|].
  exact (bfs_shortest s t e1 p1 p2 Hs Ht Hf1 Hw2).
Qed.

Lemma dfs_not_shorter_than_bfs_witness :
  exists g1 e1 p1 g2 e2 p2,
    knightMovesBFS (64 + 0) (withPrevious ∅ newGraph) (0, 0) (0, 1)
    = Some (g1, e1, Return (Some p1)) /\
    knightMovesDFS (64 + 0) (withPrevious ∅ newGraph) (0, 0) (0, 1)
    = Some (g2, e2, Return (Some p2)) /\
    (moves p1 <= moves p2)%nat.
Proof.
  apply (dfs_not_shorter_than_bfs ∅ ∅ 0 0 (0, 0) (0, 1));
    unfold onBoard, row, column; simpl; lia.
Defined.

(** X14. Called as the driver does, on [board[row][column]] with both
    coordinates on the board, each search receives the board's own vertices
    and returns a path from the start to the goal, from any state of the
    instance. *)
Theorem driver_call_on_board (old : gmap vertex vertex) (n : nat) (start goal : vertex) :
  onBoard start -> onBoard goal ->
  (exists g' p,
      driverCall knightMovesBFS (64 + n) (withPrevious old newGraph) start goal
      = Some (g', Return (Some p)) /\ pathFromTo start goal p) /\
  (exists g' p,
      driverCall knightMovesDFS (64 + n) (withPrevious old newGraph) start goal
      = Some (g', Return (Some p)) /\ pathFromTo start goal p).
Proof.
  intros Hs Ht.
  assert (forall v, onBoard v ->
            boardLookup (withPrevious old newGraph) v.1 v.2 = inr (Object v)) as Hlook.
  { intros [r c] [Hr Hc]. unfold row, column in Hr, Hc; cbn [fst snd] in *.
    rewrite boardLookup_state.
    replace ((0 <=? r) && (r <? 8)) with true
      by (symmetry; rewrite andb_true_iff, Z.leb_le, Z.ltb_lt; lia).
    replace ((0 <=? c) && (c <? 8)) with true
      by (symmetry; rewrite andb_true_iff, Z.leb_le, Z.ltb_lt; lia).
    reflexivity. }
  unfold driverCall. rewrite (Hlook start Hs), (Hlook goal Ht). cbn [applySearch].
  split.
  - destruct (bfs_on_board _ _ Hs Ht) as (e & p & Hf & [Hp _] & _).
    destruct (knightMovesBFS_any_state _ _ e p Hf old n) as [old' ->].
    exists (withPrevious old' newGraph), p. split; [reflexivity | exact Hp].
  - destruct (dfs_on_board _ _ Hs Ht) as (e & p & Hf & [Hp _] & _).
    destruct (knightMovesDFS_any_state _ _ e p Hf old n) as [old' ->].
    exists (withPrevious old' newGraph), p. split; [reflexivity | exact Hp].
Qed.

Lemma driver_call_on_board_witness :
  (exists g' p,
      driverCall knightMovesBFS (64 + 0) (withPrevious ∅ newGraph) (0, 0) (7, 7)
      = Some (g', Return (Some p)) /\ pathFromTo (0, 0) (7, 7) p) /\
  (exists g' p,
      driverCall knightMovesDFS (64 + 0) (withPrevious ∅ newGraph) (0, 0) (7, 7)
      = Some (g', Return (Some p)) /\ pathFromTo (0, 0) (7, 7) p).
Proof.
  apply (driver_call_on_board ∅ 0 (0, 0) (7, 7)); unfold onBoard, row, column; simpl; lia.
Defined.

(** ** Searches that find nothing *)

(** X15. From a vertex that has no knight move onto the board, a search
    for a goal with other coordinates takes the start from the frontier,
    finds no adjacent, and returns [null] after this one iteration, leaving
    the graph as it was. *)
Theorem isolated_start_returns_null (old : gmap vertex vertex) (fuel : nat) (s t : vertex) :
  (forall w, onBoard w -> ~ knightOffset s w) -> s <> t ->
  knightMovesBFS (S fuel) (withPrevious old newGraph) s t
  = Some (withPrevious old newGraph, [s], Return None) /\
  knightMovesDFS (S fuel) (withPrevious old newGraph) s t
  = Some (withPrevious old newGraph, [s], Return None).
Proof.
  intros Hiso Hst.
  assert (findAdjacents (withPrevious old newGraph) s = []) as Hadj.
  { destruct (findAdjacents (withPrevious old newGraph) s) as [|w l] eqn:E; [reflexivity|].
    exfalso.
    destruct (proj1 (findAdjacents_state_In old s w)) as [Hw Hoff].
    - rewrite E. left. reflexivity.
    - exact (Hiso w Hw Hoff). }
  assert ((row s =? row t) && (column s =? column t) = false) as Hne.
  { destruct ((row s =? row t) && (column s =? column t)) eqn:E; [|reflexivity].
    apply same_coordinates in E. contradiction. }
  unfold knightMovesBFS, knightMovesDFS.
  cbn [bfsLoop dfsLoop pop rev app]. rewrite Hne, Hadj. cbn [fold_left].
  destruct fuel; split; reflexivity.
Qed.

Lemma isolated_start_returns_null_witness :
  knightMovesBFS 1 (withPrevious ∅ newGraph) (20, 20) (0, 0)
  = Some (withPrevious ∅ newGraph, [(20, 20)], Return None) /\
  knightMovesDFS 1 (withPrevious ∅ newGraph) (20, 20) (0, 0)
  = Some (withPrevious ∅ newGraph, [(20, 20)], Return None).
Proof.
  apply (isolated_start_returns_null ∅ 0 (20, 20) (0, 0)).
  - intros [r c]. unfold onBoard, knightOffset, row, column; simpl. lia.
  - discriminate.
Defined.

(** ** A goal that is not on the board *)

Section OverlayNull.

Variable old : gmap vertex vertex.

Lemma bfsLoop_overlay_null (pf f : nat) s t g' explored' : forall g queue explored,
  bfsLoop pf f g queue explored s t = Some (g', explored', Return None) ->
  bfsLoop pf f (overlay old g) queue explored s t
  = Some (overlay old g', explored', Return None).
Proof.
  induction f as [|f IH]; intros g queue explored H.
  - destruct queue; cbn in H; [|discriminate]. simplify_eq. reflexivity.
  - destruct queue as [|v queue]; cbn [bfsLoop] in H |- *.
    { simplify_eq. reflexivity. }
    destruct ((row v =? row t) && (column v =? column t)).
    + unfold reconstructPath in H.
      destruct (reconstructLoop pf g v s []) as [[e|path]|]; cbn in H; discriminate.
    + rewrite findAdjacents_overlay, fold_visit_overlay.
      destruct (fold_left (visit v (explored ++ [v])) (findAdjacents g v) (g, queue))
        as [g1 queue1]; cbn [fst snd].
      apply IH, H.
Qed.

Lemma dfsLoop_overlay_null (pf f : nat) s t g' explored' : forall g stack explored,
  dfsLoop pf f g stack explored s t = Some (g', explored', Return None) ->
  dfsLoop pf f (overlay old g) stack explored s t
  = Some (overlay old g', explored', Return None).
Proof.
  induction f as [|f IH]; intros g stack explored H.
  - cbn in H |- *. destruct (pop stack) as [[v stack1]|]; [discriminate|].
    simplify_eq. reflexivity.
  - cbn [dfsLoop] in H |- *. destruct (pop stack) as [[v stack1]|].
    2:{ simplify_eq. reflexivity. }
    destruct ((row v =? row t) && (column v =? column t)).
    + unfold reconstructPath in H.
      destruct (reconstructLoop pf g v s []) as [[e|path]|]; cbn in H; discriminate.
    + rewrite findAdjacents_overlay, fold_visit_overlay.
      destruct (fold_left (visit v (explored ++ [v])) (findAdjacents g v) (g, stack1))
        as [g1 stack2]; cbn [fst snd].
      apply IH, H.
Qed.

End OverlayNull.

Lemma off_board_differs v t :
  onBoard v -> ~ onBoard t -> (row v =? row t) && (column v =? column t) = false.
Proof.
  intros Hv Ht. destruct ((row v =? row t) && (column v =? column t)) eqn:E; [|reflexivity].
  apply same_coordinates in E. subst. contradiction.
Qed.

Lemma findAdjacents_sameBoard g v :
  sameBoard newGraph g -> Forall onBoard (findAdjacents g v).
Proof.
  intros ->. apply Forall_forall. intros w Hw.
  apply list_elem_of_In, findAdjacents_state_In in Hw. tauto.
Qed.

Lemma visit_frontier v explored g frontier a x :
  In x (visit v explored (g, frontier) a).2 -> In x frontier \/ x = a.
Proof.
  unfold visit.
  destruct (negb (isVertexInArray a frontier) && negb (isVertexInArray a explored));
    cbn [snd]; [|tauto].
  rewrite in_app_iff. cbn [In]. intuition congruence.
Qed.

Lemma fold_visit_frontier v explored adjacents : forall g frontier x,
  In x (fold_left (visit v explored) adjacents (g, frontier)).2 ->
  In x frontier \/ In x adjacents.
Proof.
  induction adjacents as [|a l IH]; intros g frontier x; cbn [fold_left]; [tauto|].
  pose proof (visit_frontier v explored g frontier a x) as Hv.
  destruct (visit v explored (g, frontier) a) as [g1 frontier1]. cbn [snd] in Hv.
  intros Hx. destruct (IH _ _ _ Hx) as [H1|H1]; cbn [In]; [|tauto].
  destruct (Hv H1); [tauto | subst; tauto].
Qed.

Lemma fold_visit_onBoard v explored g frontier :
  sameBoard newGraph g -> Forall onBoard frontier ->
  Forall onBoard (fold_left (visit v explored) (findAdjacents g v) (g, frontier)).2.
Proof.
  intros Hg Hf. apply Forall_forall. intros x Hx. apply list_elem_of_In in Hx.
  destruct (fold_visit_frontier _ _ _ _ _ _ Hx) as [H|H].
  - rewrite Forall_forall in Hf. apply Hf, list_elem_of_In, H.
  - pose proof (findAdjacents_sameBoard g v Hg) as Ha.
    rewrite Forall_forall in Ha. apply Ha, list_elem_of_In, H.
Qed.

(** Two goals off the board are missed alike. *)
Lemma bfsLoop_goal_off_board (pf f : nat) s t t' : forall g queue explored,
  ~ onBoard t -> ~ onBoard t' -> sameBoard newGraph g -> Forall onBoard queue ->
  bfsLoop pf f g queue explored s t = bfsLoop pf f g queue explored s t'.
Proof.
  induction f as [|f IH]; intros g queue explored Ht Ht' Hg Hq.
  - destruct queue; reflexivity.
  - destruct queue as [|v queue]; [reflexivity|]. cbn [bfsLoop].
    apply Forall_cons in Hq as [Hv Hq].
    rewrite !off_board_differs by assumption.
    pose proof (fold_visit_sameBoard v (explored ++ [v]) (findAdjacents g v) g queue) as Hs.
    pose proof (fold_visit_onBoard v (explored ++ [v]) g queue Hg Hq) as Hon.
    destruct (fold_left (visit v (explored ++ [v])) (findAdjacents g v) (g, queue))
      as [g1 queue1]. cbn [fst snd] in Hs, Hon.
    apply IH; try assumption. exact (sameBoard_trans _ _ _ Hg Hs).
Qed.

Lemma dfsLoop_goal_off_board (pf f : nat) s t t' : forall g stack explored,
  ~ onBoard t -> ~ onBoard t' -> sameBoard newGraph g -> Forall onBoard stack ->
  dfsLoop pf f g stack explored s t = dfsLoop pf f g stack explored s t'.
Proof.
  induction f as [|f IH]; intros g stack explored Ht Ht' Hg Hq.
  - cbn. destruct (pop stack) as [[v stack1]|]; reflexivity.
  - cbn [dfsLoop]. destruct (pop stack) as [[v stack1]|] eqn:Epop; [|reflexivity].
    apply pop_snoc in Epop. subst stack.
    apply Forall_app in Hq as [Hq Hv]. apply Forall_cons in Hv as [Hv _].
    rewrite !off_board_differs by assumption.
    pose proof (fold_visit_sameBoard v (explored ++ [v]) (findAdjacents g v) g stack1) as Hs.
    pose proof (fold_visit_onBoard v (explored ++ [v]) g stack1 Hg Hq) as Hon.
    destruct (fold_left (visit v (explored ++ [v])) (findAdjacents g v) (g, stack1))
      as [g1 stack2]. cbn [fst snd] in Hs, Hon.
    apply IH; try assumption. exact (sameBoard_trans _ _ _ Hg Hs).
Qed.

Lemma bfs_miss_sweep : forallb (missOkb knightMovesBFS) squares = true.
Proof. vm_compute. reflexivity. Qed.

Lemma dfs_miss_sweep : forallb (missOkb knightMovesDFS) squares = true.
Proof. vm_compute. reflexivity. Qed.

Lemma missOkb_spec search s :
  missOkb search s = true ->
  exists explored,
    missed search s (8, 8) = Some explored /\
    NoDup explored /\ forall v, In v explored <-> onBoard v.
Proof.
  unfold missOkb. destruct (missed search s (8, 8)) as [explored|]; [|discriminate].
  rewrite !andb_true_iff. intros [[H1 H2] H3]. exists explored.
  apply bool_decide_eq_true in H1. rewrite forallb_forall in H2, H3.
  split; [reflexivity|]. split; [exact H1|]. intros v. split.
  - intros Hv. apply onBoardb_spec, H2, Hv.
  - intros Hv. apply isVertexInArray_In, H3, onBoard_squares, Hv.
Qed.

Lemma missed_run search s t explored :
  missed search s t = Some explored ->
  exists g', search 64%nat newGraph s t = Some (g', explored, Return None).
Proof.
  unfold missed. intros H.
  destruct (search 64%nat newGraph s t) as [[[g' e'] c]|]; [|discriminate].
  destruct c as [[p'|]|]; try discriminate. simplify_eq. eauto.
Qed.

Lemma eight_eight_off_board : ~ onBoard (8, 8).
Proof. unfold onBoard, row, column; simpl; lia. Qed.

(** X16. With a start on the board and a goal whose coordinates are not,
    each search removes every one of the 64 squares from its frontier exactly
    once (every square can be reached from every other) and then returns
    [null], from any state of the instance. *)
Theorem goal_off_board_returns_null (old : gmap vertex vertex) (n : nat) (s t : vertex) :
  onBoard s -> ~ onBoard t ->
  (exists g' explored,
      knightMovesBFS (64 + n) (withPrevious old newGraph) s t
      = Some (g', explored, Return None) /\
      NoDup explored /\ forall v, In v explored <-> onBoard v) /\
  (exists g' explored,
      knightMovesDFS (64 + n) (withPrevious old newGraph) s t
      = Some (g', explored, Return None) /\
      NoDup explored /\ forall v, In v explored <-> onBoard v).
Proof.
  intros Hs Ht.
  assert (sameBoard newGraph (withPrevious old newGraph)) as Hg by reflexivity.
  assert (Forall onBoard [s]) as Hq by (constructor; [exact Hs | constructor]).
  split.
  - pose proof bfs_miss_sweep as H. rewrite forallb_forall in H.
    destruct (missOkb_spec _ _ (H s (onBoard_squares s Hs))) as (explored & Hm & Hnd & Hall).
    destruct (missed_run _ _ _ _ Hm) as [g' Hrun]. unfold knightMovesBFS in Hrun.
    apply (bfsLoop_overlay_null old) in Hrun. rewrite overlay_newGraph in Hrun.
    apply (bfsLoop_more 64 (64 + n) 64 (64 + n)) in Hrun; [|lia|lia].
    exists (overlay old g'), explored. split; [|split; assumption].
    unfold knightMovesBFS.
    rewrite (bfsLoop_goal_off_board _ _ s t (8, 8) _ _ _ Ht eight_eight_off_board Hg Hq).
    exact Hrun.
  - pose proof dfs_miss_sweep as H. rewrite forallb_forall in H.
    destruct (missOkb_spec _ _ (H s (onBoard_squares s Hs))) as (explored & Hm & Hnd & Hall).
    destruct (missed_run _ _ _ _ Hm) as [g' Hrun]. unfold knightMovesDFS in Hrun.
    apply (dfsLoop_overlay_null old) in Hrun. rewrite overlay_newGraph in Hrun.
    apply (dfsLoop_more 64 (64 + n) 64 (64 + n)) in Hrun; [|lia|lia].
    exists (overlay old g'), explored. split; [|split; assumption].
    unfold knightMovesDFS.
    rewrite (dfsLoop_goal_off_board _ _ s t (8, 8) _ _ _ Ht eight_eight_off_board Hg Hq).
    exact Hrun.
Qed.

Lemma goal_off_board_returns_null_witness :
  (exists g' explored,
      knightMovesBFS (64 + 0) (withPrevious ∅ newGraph) (0, 0) (8, 0)
      = Some (g', explored, Return None) /\
      NoDup explored /\ forall v, In v explored <-> onBoard v) /\
  (exists g' explored,
      knightMovesDFS (64 + 0) (withPrevious ∅ newGraph) (0, 0) (8, 0)
      = Some (g', explored, Return None) /\
      NoDup explored /\ forall v, In v explored <-> onBoard v).
Proof.
  apply (goal_off_board_returns_null ∅ 0 (0, 0) (8, 0));
    unfold onBoard, row, column; simpl; lia.
Defined.

(** ** A search never reads a [null] predecessor *)









